(** * GitHub repository synchronization: service and panel

    A shallow embedding of [GitHubSyncService] (the singleton service that
    reconciles the WebSocket channel, the polling channel and manual syncs)
    and of the event handlers of [GitHubSyncPanel] (the repository table and
    the bounded sync history).

    Conventions of the embedding.
    - The service object ([this]) and the part of the browser it talks to
      (timer queue, interval table, WebSocket constructor) form the [World];
      every method is a computation in the monad [M], which threads the
      world, collects the observable effects in order and carries thrown
      exceptions.
    - An [async] method is split at its single [await]: the part that runs
      synchronously (it issues the HTTP request) and the continuation that
      runs when the request settles.
    - Numbers are integers ([Z]); [console] output is not modelled.
    - A callback is known by the identity of its function reference. *)

From Stdlib Require Import ZArith Lia.
From stdpp Require Import gmap strings list sorting.

Open Scope string_scope.
Open Scope Z_scope.
Open Scope list_scope.

(** ** Payloads carried on the event feed *)

(** Opaque JSON fragments (commit lists, pull request bodies, option bags). *)
Definition JSON := string.

(** A listener is a function reference; two listeners are the same listener
    when they are the same reference. *)
Definition Callback := nat.

(** Handles handed out by the browser ([setTimeout], [setInterval] and
    WebSocket objects): positive integers, hence truthy. *)
Definition Handle := positive.

Inductive Source := webhook | polling | manual.

(** The [status] strings of a connection-status event. *)
Module Status.
Inductive t := connecting | connected | disconnected | error.
End Status.

Record Changes := mkChanges { added : Z; modified : Z; deleted : Z }.

(** The object passed to ['repo-updated'] listeners.  A field the emitting
    site does not write is [None] (JavaScript [undefined]). *)
Record RepoEvent := mkRepoEvent {
  ev_repository : string;
  ev_branch : option string;
  ev_commits : option JSON;
  ev_pullRequest : option JSON;
  ev_action : option string;
  ev_lastUpdate : option Z;
  ev_changes : option Changes;
  ev_source : Source }.

(** The object passed to ['sync-error'] listeners. *)
Record ErrorEvent := mkErrorEvent {
  err_error : string;
  err_details : option string;
  err_fallback : option string }.

(** The object passed to ['connection-status'] listeners. *)
Record StatusEvent := mkStatusEvent {
  st_status : Status.t;
  st_method : option Source }.

Inductive Payload :=
| RepoUpdated (d : RepoEvent)
| SyncError (d : ErrorEvent)
| ConnectionStatus (d : StatusEvent).

(** A thrown JavaScript value, with its [message]. *)
Inductive Error :=
| TypeError (message : string)
| DOMException (message : string)
| HttpError (message : string).

Definition message (e : Error) : string :=
  match e with TypeError m | DOMException m | HttpError m => m end.

(** Everything the service does to the outside, in program order. *)
Inductive Effect :=
| Notify (event : string) (data : Payload) (receivers : list Callback)
| WsNew (h : Handle)
| WsClose (h : Handle) (code : Z)
| SetTimeout (h : Handle) (delay : Z)
| SetInterval (h : Handle) (interval : Z)
| ClearInterval (h : Handle)
| HttpGet (url : string)
| HttpPost (url : string) (repo : string) (options : JSON).

(** ** The service object and the browser *)

Record Config := mkConfig {
  baseApiUrl : string;
  pollingInterval : Z;
  useWebhooks : bool;
  usePolling : bool;
  maxRetries : Z;
  retryDelay : Z }.

(** The [options] argument of [startSync]: any subset of the config keys. *)
Record Options := mkOptions {
  opt_baseApiUrl : option string;
  opt_pollingInterval : option Z;
  opt_useWebhooks : option bool;
  opt_usePolling : option bool;
  opt_maxRetries : option Z;
  opt_retryDelay : option Z }.

Definition noOptions : Options := mkOptions None None None None None None.

(** [{ ...this.config, ...options }] *)
Definition spread (c : Config) (o : Options) : Config :=
  {| baseApiUrl := default (baseApiUrl c) (opt_baseApiUrl o);
     pollingInterval := default (pollingInterval c) (opt_pollingInterval o);
     useWebhooks := default (useWebhooks c) (opt_useWebhooks o);
     usePolling := default (usePolling c) (opt_usePolling o);
     maxRetries := default (maxRetries c) (opt_maxRetries o);
     retryDelay := default (retryDelay c) (opt_retryDelay o) |}.

Record Service := mkService {
  config : Config;
  isConnected : bool;
  socket : option Handle;
  pollingTimeout : option Handle;
  retryCount : Z;
  listeners : gmap string (list Callback) }.

(** The browser state the service depends on.  [timeouts] holds the
    [setTimeout] callbacks that have not run yet (each one is
    [() => this.connectWebSocket()]), [intervals] the live [setInterval]
    registrations (each one runs [this.pollRepositories]); [wsRefused] says
    whether [new WebSocket(url)] throws. *)
Record Browser := mkBrowser {
  nextHandle : Handle;
  timeouts : list (Handle * Z);
  intervals : list (Handle * Z);
  wsRefused : bool }.

Record World := mkWorld { this : Service; browser : Browser }.

(** ** The monad of service methods *)

Inductive Outcome (A : Type) :=
| Returns (a : A)
| Throws (e : Error).
Arguments Returns {A} a.
Arguments Throws {A} e.

Record Result (A : Type) := mkResult {
  outcome : Outcome A;
  world : World;
  effects : list Effect }.
Arguments mkResult {A} _ _ _.
Arguments outcome {A} _.
Arguments world {A} _.
Arguments effects {A} _.

Definition M (A : Type) : Type := World -> Result A.

Definition ret {A} (a : A) : M A := fun w => mkResult (Returns a) w [].

Definition bind {A B} (m : M A) (k : A -> M B) : M B := fun w =>
  match m w with
  | mkResult (Returns a) w1 es =>
      match k a w1 with
      | mkResult o w2 es' => mkResult o w2 (es ++ es')
      end
  | mkResult (Throws e) w1 es => mkResult (Throws e) w1 es
  end.

Definition throw {A} (e : Error) : M A := fun w => mkResult (Throws e) w [].

(** [try { m } catch (error) { h error }] *)
Definition try_catch {A} (m : M A) (h : Error -> M A) : M A := fun w =>
  match m w with
  | mkResult (Returns a) w1 es => mkResult (Returns a) w1 es
  | mkResult (Throws e) w1 es =>
      match h e w1 with
      | mkResult o w2 es' => mkResult o w2 (es ++ es')
      end
  end.

Definition emit (e : Effect) : M unit := fun w => mkResult (Returns tt) w [e].

Definition gets {A} (f : Service -> A) : M A := fun w =>
  mkResult (Returns (f (this w))) w [].

Definition update (f : Service -> Service) : M unit := fun w =>
  mkResult (Returns tt) (mkWorld (f (this w)) (browser w)) [].

Definition browse {A} (f : Browser -> A) : M A := fun w =>
  mkResult (Returns (f (browser w))) w [].

Definition tamper (f : Browser -> Browser) : M unit := fun w =>
  mkResult (Returns tt) (mkWorld (this w) (f (browser w))) [].

Declare Scope sync_scope.
Delimit Scope sync_scope with sync.
Notation "x <- m ;; k" := (bind m (fun x => k))
  (at level 100, m at next level, right associativity) : sync_scope.
Notation "m ;; k" := (bind m (fun _ => k))
  (at level 100, right associativity) : sync_scope.
Open Scope sync_scope.

Definition when (b : bool) (m : M unit) : M unit := if b then m else ret tt.

Fixpoint forEach {A} (l : list A) (f : A -> M unit) : M unit :=
  match l with
  | [] => ret tt
  | x :: l' => f x ;; forEach l' f
  end.

(** Field assignments on [this]. *)
Definition set_config (c : Config) (s : Service) : Service :=
  mkService c (isConnected s) (socket s) (pollingTimeout s) (retryCount s)
    (listeners s).
Definition set_isConnected (b : bool) (s : Service) : Service :=
  mkService (config s) b (socket s) (pollingTimeout s) (retryCount s)
    (listeners s).
Definition set_socket (h : option Handle) (s : Service) : Service :=
  mkService (config s) (isConnected s) h (pollingTimeout s) (retryCount s)
    (listeners s).
Definition set_pollingTimeout (h : option Handle) (s : Service) : Service :=
  mkService (config s) (isConnected s) (socket s) h (retryCount s)
    (listeners s).
Definition set_retryCount (n : Z) (s : Service) : Service :=
  mkService (config s) (isConnected s) (socket s) (pollingTimeout s) n
    (listeners s).
Definition set_listeners (l : gmap string (list Callback)) (s : Service)
  : Service :=
  mkService (config s) (isConnected s) (socket s) (pollingTimeout s)
    (retryCount s) l.

(** ** Browser primitives *)

Definition fresh : M Handle := fun w =>
  let b := browser w in
  mkResult (Returns (nextHandle b))
    (mkWorld (this w)
       (mkBrowser (Pos.succ (nextHandle b)) (timeouts b) (intervals b)
          (wsRefused b)))
    [].

Definition cancel (h : Handle) (l : list (Handle * Z)) : list (Handle * Z) :=
  filter (fun x => x.1 <> h) l.

(** [setTimeout(() => this.connectWebSocket(), delay)]; the returned handle
    is discarded by the caller. *)
Definition setTimeout (delay : Z) : M unit :=
  h <- fresh ;;
  tamper (fun b => mkBrowser (nextHandle b) (timeouts b ++ [(h, delay)])
                     (intervals b) (wsRefused b)) ;;
  emit (SetTimeout h delay).

(** [setInterval(this.pollRepositories, interval)] *)
Definition setInterval (interval : Z) : M Handle :=
  h <- fresh ;;
  tamper (fun b => mkBrowser (nextHandle b) (timeouts b)
                     (intervals b ++ [(h, interval)]) (wsRefused b)) ;;
  emit (SetInterval h interval) ;;
  ret h.

Definition clearInterval (h : Handle) : M unit :=
  tamper (fun b => mkBrowser (nextHandle b) (timeouts b)
                     (cancel h (intervals b)) (wsRefused b)) ;;
  emit (ClearInterval h).

(** [new WebSocket(wsUrl)] *)
Definition newWebSocket : M Handle :=
  refused <- browse wsRefused ;;
  if (refused : bool) then throw (DOMException "The connection was refused")
  else h <- fresh ;; emit (WsNew h) ;; ret h.

(** ** The listener table

    [this.listeners] is an object literal with three own keys.  A read
    [this.listeners[event]] of any other key falls through to
    [Object.prototype]: for the names below it yields an inherited member
    (truthy, and neither [push] nor [filter] nor [forEach] is callable on
    it); for every other name it yields [undefined]. *)
Definition objectPrototypeKeys : list string :=
  [ "constructor"; "hasOwnProperty"; "isPrototypeOf"; "propertyIsEnumerable";
    "toLocaleString"; "toString"; "valueOf"; "__proto__";
    "__defineGetter__"; "__defineSetter__"; "__lookupGetter__";
    "__lookupSetter__" ].

Inductive Property :=
| Own (cbs : list Callback)
| Inherited
| Undefined.

Definition getProperty (ls : gmap string (list Callback)) (event : string)
  : Property :=
  match ls !! event with
  | Some cbs => Own cbs
  | None =>
      if existsb (String.eqb event) objectPrototypeKeys then Inherited
      else Undefined
  end.

Definition initialListeners : gmap string (list Callback) :=
  <["repo-updated" := []]>
    (<["sync-error" := []]> (<["connection-status" := []]> ∅)).

(** ** The service methods *)

(** [notifyListeners(event, data)]: every listener of the kind is called with
    [data], in registration order; an exception thrown by a listener is
    caught and logged, so delivery continues with the next one.  The effect
    records the call and the listeners it reached. *)
Definition notifyListeners (event : string) (data : Payload) : M unit :=
  ls <- gets listeners ;;
  match getProperty ls event with
  | Own cbs => emit (Notify event data cbs)
  | Inherited =>
      throw (TypeError "this.listeners[event].forEach is not a function")
  | Undefined => ret tt
  end.

Definition addEventListener (event : string) (callback : Callback) : M unit :=
  ls <- gets listeners ;;
  match getProperty ls event with
  | Own cbs => update (set_listeners (<[event := (cbs ++ [callback])%list]> ls))
  | Inherited =>
      throw (TypeError "this.listeners[event].push is not a function")
  | Undefined => ret tt
  end.

Definition removeEventListener (event : string) (callback : Callback)
  : M unit :=
  ls <- gets listeners ;;
  match getProperty ls event with
  | Own cbs =>
      update (set_listeners
                (<[event := filter (fun cb => cb <> callback) cbs]> ls))
  | Inherited =>
      throw (TypeError "this.listeners[event].filter is not a function")
  | Undefined => ret tt
  end.

(** One entry of [response.data.repositories] of the status endpoint. *)
Record RepoStatus := mkRepoStatus {
  rs_name : string;
  rs_hasChanges : bool;
  rs_lastUpdate : option Z;
  rs_changes : option Changes }.

(** How an awaited HTTP request settles. *)
Inductive Settled (A : Type) :=
| Resolved (data : A)
| Rejected (e : Error).
Arguments Resolved {A} data.
Arguments Rejected {A} e.

Definition await {A} (r : Settled A) : M A :=
  match r with
  | Resolved data => ret data
  | Rejected e => throw e
  end.

(** [pollRepositories], up to its [await]: the status request is sent. *)
Definition pollRepositories : M unit :=
  url <- gets (fun s => baseApiUrl (config s)) ;;
  emit (HttpGet (url ++ "/github/repos/status")%string).

(** [pollRepositories], from its [await] on.  [response] is how the request
    settled; a resolved response carries [response.data.repositories], which
    may be missing. *)
Definition pollRepositories_resume
  (response : Settled (option (list RepoStatus))) : M unit :=
  try_catch
    (repositories <- await response ;;
     match repositories with
     | Some repos =>
         forEach repos (fun repo =>
           when (rs_hasChanges repo)
             (notifyListeners "repo-updated"
                (RepoUpdated
                   {| ev_repository := rs_name repo;
                      ev_branch := None; ev_commits := None;
                      ev_pullRequest := None; ev_action := None;
                      ev_lastUpdate := rs_lastUpdate repo;
                      ev_changes := rs_changes repo;
                      ev_source := polling |})))
     | None => ret tt
     end ;;
     c <- gets isConnected ;;
     when (negb c)
       (update (set_isConnected true) ;;
        notifyListeners "connection-status"
          (ConnectionStatus (mkStatusEvent Status.connected (Some polling)))))
    (fun exn =>
       notifyListeners "sync-error"
         (SyncError (mkErrorEvent "Repository polling failed"
                       (Some (message exn)) None)) ;;
       c <- gets isConnected ;;
       when c
         (update (set_isConnected false) ;;
          notifyListeners "connection-status"
            (ConnectionStatus (mkStatusEvent Status.error None)))).

Definition stopPolling : M unit :=
  t <- gets pollingTimeout ;;
  match t with
  | Some h => clearInterval h ;; update (set_pollingTimeout None)
  | None => ret tt
  end.

Definition startPolling : M unit :=
  stopPolling ;;
  pollRepositories ;;
  interval <- gets (fun s => pollingInterval (config s)) ;;
  h <- setInterval interval ;;
  update (set_pollingTimeout (Some h)).

Definition disconnectWebSocket : M unit :=
  s <- gets socket ;;
  match s with
  | Some h =>
      try_catch (emit (WsClose h 1000)) (fun _ => ret tt) ;;
      update (set_socket None)
  | None => ret tt
  end.

(** The fallback both failure paths of the WebSocket share:
    [if (this.config.usePolling && !this.pollingTimeout) this.startPolling()] *)
Definition ensurePolling : M unit :=
  p <- gets (fun s => usePolling (config s)) ;;
  t <- gets pollingTimeout ;;
  when (p && negb (bool_decide (is_Some t))) startPolling.

Definition connectWebSocket : M unit :=
  try_catch
    (s <- gets socket ;;
     when (bool_decide (is_Some s)) disconnectWebSocket ;;
     h <- newWebSocket ;;
     update (set_socket (Some h)))
    (fun exn =>
       notifyListeners "sync-error"
         (SyncError (mkErrorEvent "Failed to establish WebSocket connection"
                       (Some (message exn)) None)) ;;
       ensurePolling).

(** [socket.onopen] *)
Definition onopen : M unit :=
  update (set_isConnected true) ;;
  update (set_retryCount 0) ;;
  notifyListeners "connection-status"
    (ConnectionStatus (mkStatusEvent Status.connected (Some webhook))).

(** [socket.onerror] *)
Definition onerror (details : JSON) : M unit :=
  notifyListeners "sync-error"
    (SyncError (mkErrorEvent "WebSocket connection error" (Some details) None)).

(** [socket.onclose], for a close event with the given [code]. *)
Definition onclose (code : Z) : M unit :=
  update (set_isConnected false) ;;
  notifyListeners "connection-status"
    (ConnectionStatus (mkStatusEvent Status.disconnected None)) ;;
  when (negb (code =? 1000)%Z)
    (n <- gets retryCount ;;
     m <- gets (fun s => maxRetries (config s)) ;;
     if (n <? m)%Z then
       update (set_retryCount (n + 1)%Z) ;;
       n' <- gets retryCount ;;
       d <- gets (fun s => retryDelay (config s)) ;;
       setTimeout (n' * d)%Z
     else
       notifyListeners "sync-error"
         (SyncError (mkErrorEvent
                       "WebSocket connection failed after max retries" None
                       (Some "Switching to polling mode only"))) ;;
       ensurePolling).

(** A parsed WebSocket message ([JSON.parse(event.data)]); [Malformed] is a
    frame on which parsing throws. *)
Inductive WsMessage :=
| GithubPush (repository : string) (branch : option string)
    (commits : option JSON)
| GithubPullRequest (repository : string) (pull_request : option JSON)
    (action : option string)
| GithubOther (event : string)
| Ping
| UnknownType (type : string)
| Malformed.

Definition handleWebSocketMessage (msg : WsMessage) : M unit :=
  try_catch
    (match msg with
     | Malformed => throw (TypeError "Unexpected token in JSON")
     | GithubPush repository branch commits =>
         notifyListeners "repo-updated"
           (RepoUpdated
              {| ev_repository := repository; ev_branch := branch;
                 ev_commits := commits; ev_pullRequest := None;
                 ev_action := None; ev_lastUpdate := None;
                 ev_changes := None; ev_source := webhook |})
     | GithubPullRequest repository pull_request action =>
         notifyListeners "repo-updated"
           (RepoUpdated
              {| ev_repository := repository; ev_branch := None;
                 ev_commits := None; ev_pullRequest := pull_request;
                 ev_action := action; ev_lastUpdate := None;
                 ev_changes := None; ev_source := webhook |})
     | GithubOther _ | Ping | UnknownType _ => ret tt
     end)
    (fun _ => ret tt).

Definition startSync (options : Options) : M unit :=
  update (fun s => set_config (spread (config s) options) s) ;;
  notifyListeners "connection-status"
    (ConnectionStatus (mkStatusEvent Status.connecting None)) ;;
  w <- gets (fun s => useWebhooks (config s)) ;;
  when w connectWebSocket ;;
  p <- gets (fun s => usePolling (config s)) ;;
  when p startPolling.

Definition stopSync : M unit :=
  disconnectWebSocket ;;
  stopPolling ;;
  update (set_isConnected false) ;;
  notifyListeners "connection-status"
    (ConnectionStatus (mkStatusEvent Status.disconnected None)).

(** [syncRepository(repoName, options)], up to its [await]: the sync request
    is sent. *)
Definition syncRepository (repoName : string) (options : JSON) : M unit :=
  url <- gets (fun s => baseApiUrl (config s)) ;;
  emit (HttpPost (url ++ "/github/repos/sync")%string repoName options).

(** [syncRepository], from its [await] on.  A resolved response carries
    [response.data.changes]; the promise the caller awaits resolves with the
    response data or rejects with the error. *)
Definition syncRepository_resume (repoName : string)
  (response : Settled (option Changes)) : M (option Changes) :=
  try_catch
    (changes <- await response ;;
     notifyListeners "repo-updated"
       (RepoUpdated
          {| ev_repository := repoName; ev_branch := None;
             ev_commits := None; ev_pullRequest := None; ev_action := None;
             ev_lastUpdate := None; ev_changes := changes;
             ev_source := manual |}) ;;
     ret changes)
    (fun exn =>
       notifyListeners "sync-error"
         (SyncError (mkErrorEvent ("Failed to sync repository " ++ repoName)%string
                       (Some (message exn)) None)) ;;
       throw exn).

(** The service as constructed, in a browser that has handed out no handle
    yet. *)
Definition defaultConfig : Config :=
  {| baseApiUrl := "/api"; pollingInterval := 60000; useWebhooks := true;
     usePolling := true; maxRetries := 3; retryDelay := 5000 |}.

Definition constructor : Service :=
  {| config := defaultConfig; isConnected := false; socket := None;
     pollingTimeout := None; retryCount := 0;
     listeners := initialListeners |}.

Definition initialWorld : World :=
  mkWorld constructor (mkBrowser 1%positive [] [] false).

(** ** The event loop

    What can happen to the service: a call of one of its methods, a
    WebSocket event, a timer of the browser coming due, or a pending HTTP
    request settling.  A timer that is not (or no longer) registered never
    fires. *)
Inductive Input :=
| StartSync (options : Options)
| StopSync
| SyncRepository (repoName : string) (options : JSON)
| SyncSettles (repoName : string) (response : Settled (option Changes))
| AddEventListener (event : string) (callback : Callback)
| RemoveEventListener (event : string) (callback : Callback)
| ConnectWebSocket
| DisconnectWebSocket
| StartPolling
| StopPolling
| PollRepositories
| NotifyListeners (event : string) (data : Payload)
| SocketOpens
| SocketMessage (msg : WsMessage)
| SocketErrors (details : JSON)
| SocketCloses (code : Z)
| TimeoutFires (h : Handle)
| IntervalFires (h : Handle)
| PollSettles (response : Settled (option (list RepoStatus))).

Definition registered (h : Handle) (l : list (Handle * Z)) : bool :=
  bool_decide (h ∈ l.*1).

Definition timeoutFires (h : Handle) : M unit :=
  ts <- browse timeouts ;;
  when (registered h ts)
    (tamper (fun b => mkBrowser (nextHandle b) (cancel h (timeouts b))
                        (intervals b) (wsRefused b)) ;;
     connectWebSocket).

Definition intervalFires (h : Handle) : M unit :=
  ts <- browse intervals ;;
  when (registered h ts) pollRepositories.

Definition step (i : Input) : M unit :=
  match i with
  | StartSync options => startSync options
  | StopSync => stopSync
  | SyncRepository repoName options => syncRepository repoName options
  | SyncSettles repoName response =>
      syncRepository_resume repoName response ;; ret tt
  | AddEventListener event callback => addEventListener event callback
  | RemoveEventListener event callback => removeEventListener event callback
  | ConnectWebSocket => connectWebSocket
  | DisconnectWebSocket => disconnectWebSocket
  | StartPolling => startPolling
  | StopPolling => stopPolling
  | PollRepositories => pollRepositories
  | NotifyListeners event data => notifyListeners event data
  | SocketOpens => onopen
  | SocketMessage msg => handleWebSocketMessage msg
  | SocketErrors details => onerror details
  | SocketCloses code => onclose code
  | TimeoutFires h => timeoutFires h
  | IntervalFires h => intervalFires h
  | PollSettles response => pollRepositories_resume response
  end.

(** Runs the inputs in order; an exception thrown by one of them reaches its
    caller and the loop goes on. *)
Fixpoint run (inputs : list Input) (w : World) : World * list Effect :=
  match inputs with
  | [] => (w, [])
  | i :: rest =>
      let r := step i w in
      let wes := run rest (world r) in
      (wes.1, (effects r ++ wes.2)%list)
  end.


(** ** The panel: repository table and sync history *)

Module Panel.

(** One row of the [repositories] state.  Rows fetched from the backend may
    lack [lastUpdate] and [lastEvent]. *)
Record Repo := mkRepo {
  name : string;
  lastUpdate : option Z;
  hasChanges : bool;
  lastEvent : option RepoEvent }.

(** One entry of the [syncHistory] state: the two object shapes the handlers
    build, [{timestamp, repository, source, details}] for an update and
    [{timestamp, error: true, details}] for an error. *)
Inductive HistoryEntry :=
| UpdateEntry (timestamp : Z) (repository : string) (source : Source)
    (details : RepoEvent)
| ErrorEntry (timestamp : Z) (details : ErrorEvent).

Definition timestamp (e : HistoryEntry) : Z :=
  match e with UpdateEntry t _ _ _ | ErrorEntry t _ => t end.

Definition source (e : HistoryEntry) : option Source :=
  match e with UpdateEntry _ _ s _ => Some s | ErrorEntry _ _ => None end.

Record State := mkState {
  repositories : list Repo;
  syncStatus : StatusEvent;
  error : option string;
  syncHistory : list HistoryEntry }.

(** The initial values of the [useState] hooks. *)
Definition initial : State :=
  {| repositories := [];
     syncStatus := mkStatusEvent Status.disconnected None;
     error := None;
     syncHistory := [] |}.

(** The updater passed to [setRepositories] by [handleRepoUpdate]; [now] is
    the reading of [new Date()] inside it. *)
Definition updateRepositories (now : Z) (data : RepoEvent)
  (prevRepos : list Repo) : list Repo :=
  match list_find (fun repo => name repo = ev_repository data) prevRepos with
  | Some (existingRepoIndex, existing) =>
      <[existingRepoIndex :=
          {| name := name existing;
             lastUpdate := Some now;
             hasChanges := true;
             lastEvent := Some data |}]> prevRepos
  | None =>
      prevRepos ++
        [ {| name := ev_repository data;
             lastUpdate := Some now;
             hasChanges := true;
             lastEvent := Some data |} ]
  end.

(** The updater both handlers pass to [setSyncHistory]:
    [prev => [entry, ...prev.slice(0, 19)]]. *)
Definition record (entry : HistoryEntry) (prev : list HistoryEntry)
  : list HistoryEntry :=
  entry :: take 19 prev.

(** [handleRepoUpdate(data)]; [now] and [now'] are the two successive
    readings of [new Date()], in the repository updater and in the history
    updater. *)
Definition handleRepoUpdate (now now' : Z) (data : RepoEvent) (p : State)
  : State :=
  {| repositories := updateRepositories now data (repositories p);
     syncStatus := syncStatus p;
     error := None;
     syncHistory :=
       record (UpdateEntry now' (ev_repository data) (ev_source data) data)
         (syncHistory p) |}.

Definition handleConnectionStatus (data : StatusEvent) (p : State) : State :=
  {| repositories := repositories p;
     syncStatus := data;
     error :=
       match st_status data with
       | Status.error =>
           Some "Connection error. Check network or server status."
       | Status.connected => None
       | _ => error p
       end;
     syncHistory := syncHistory p |}.

Definition handleSyncError (now : Z) (data : ErrorEvent) (p : State) : State :=
  {| repositories := repositories p;
     syncStatus := syncStatus p;
     error := Some (err_error data);
     syncHistory := record (ErrorEntry now data) (syncHistory p) |}.

(** Anything the panel records: a repository update or a sync error, with
    the clock readings its handler takes. *)
Inductive Recorded :=
| Update (now now' : Z) (data : RepoEvent)
| Failure (now : Z) (data : ErrorEvent).

Definition handle (r : Recorded) (p : State) : State :=
  match r with
  | Update now now' data => handleRepoUpdate now now' data p
  | Failure now data => handleSyncError now data p
  end.

Definition entry (r : Recorded) : HistoryEntry :=
  match r with
  | Update _ now' data =>
      UpdateEntry now' (ev_repository data) (ev_source data) data
  | Failure now data => ErrorEntry now data
  end.

(** Handles the events in order of arrival. *)
Definition process (rs : list Recorded) (p : State) : State :=
  foldl (fun p r => handle r p) p rs.

(** The row of a repository: the first one with its name, the one
    [findIndex] reaches. *)
Definition row (repo : string) (p : State) : option Repo :=
  snd <$> list_find (fun r => name r = repo) (repositories p).

(** The stored last-update timestamp of a repository. *)
Definition stored (repo : string) (p : State) : option Z :=
  match row repo p with
  | Some r => lastUpdate r
  | None => None
  end.

(** The clock readings at which the updates of one repository were handled,
    in order of arrival. *)
Definition clocks (repo : string) (rs : list Recorded) : list Z :=
  omap (fun r =>
          match r with
          | Update now _ data =>
              if decide (ev_repository data = repo) then Some now else None
          | Failure _ _ => None
          end) rs.

(** The timestamp an update carries: the [lastUpdate] the backend reported
    for a poll result, else (a WebSocket or manual update carries none) the
    time of its arrival. *)
Definition eventTimestamp (now : Z) (data : RepoEvent) : Z :=
  default now (ev_lastUpdate data).

(** The timestamps carried by the updates of one repository. *)
Definition observed (repo : string) (rs : list Recorded) : list Z :=
  omap (fun r =>
          match r with
          | Update now _ data =>
              if decide (ev_repository data = repo)
              then Some (eventTimestamp now data) else None
          | Failure _ _ => None
          end) rs.

Definition maximum (ts : list Z) : option Z :=
  match ts with
  | [] => None
  | t :: ts' => Some (foldr Z.max t ts')
  end.

(** The function references the panel registers in its mount effect. *)
Definition handleRepoUpdate_ref : Callback := 1%nat.
Definition handleConnectionStatus_ref : Callback := 2%nat.
Definition handleSyncError_ref : Callback := 3%nat.

(** Calling a listener with a payload.  A reference that is not one of the
    panel's runs code outside the panel; each handler of the panel is only
    ever registered for, and so only ever called with, its own kind of
    payload. *)
Definition invoke (now now' : Z) (data : Payload) (p : State)
  (cb : Callback) : State :=
  match data with
  | RepoUpdated d =>
      if decide (cb = handleRepoUpdate_ref) then handleRepoUpdate now now' d p
      else p
  | ConnectionStatus d =>
      if decide (cb = handleConnectionStatus_ref)
      then handleConnectionStatus d p else p
  | SyncError d =>
      if decide (cb = handleSyncError_ref) then handleSyncError now d p
      else p
  end.

(** What an effect of the service does to the panel: a notification reaches
    the listeners it names, in order. *)
Definition deliver (now now' : Z) (e : Effect) (p : State) : State :=
  match e with
  | Notify _ data receivers => foldl (invoke now now' data) p receivers
  | _ => p
  end.

End Panel.

(** The mount effect of the panel: it registers its three handlers and
    starts the service with its settings (polling interval in seconds). *)
Definition mount (useWebhooks' usePolling' : bool) (pollingInterval' : Z)
  : list Input :=
  [ AddEventListener "repo-updated" Panel.handleRepoUpdate_ref;
    AddEventListener "connection-status" Panel.handleConnectionStatus_ref;
    AddEventListener "sync-error" Panel.handleSyncError_ref;
    StartSync (mkOptions None (Some (pollingInterval' * 1000)%Z)
                 (Some useWebhooks') (Some usePolling') None None) ].

(** Its cleanup. *)
Definition unmount : list Input :=
  [ RemoveEventListener "repo-updated" Panel.handleRepoUpdate_ref;
    RemoveEventListener "connection-status" Panel.handleConnectionStatus_ref;
    RemoveEventListener "sync-error" Panel.handleSyncError_ref;
    StopSync ].

(** The world once the panel is mounted with its default settings. *)
Definition mountedWorld : World :=
  Eval vm_compute in (run (mount true true 60) initialWorld).1.


(** * Properties *)

(** ** The sync history ring *)

Section History.
Import Panel.

Lemma take_app_take {A} (n : nat) (l k : list A) :
  take n (l ++ take n k) = take n (l ++ k).
Proof.
  rewrite !take_app, take_take. f_equal. f_equal. lia.
Qed.

Lemma syncHistory_handle r p :
  syncHistory (handle r p) = record (entry r) (syncHistory p).
Proof. destruct r; reflexivity. Qed.

Lemma record_take e prev : record e prev = take 20 (e :: prev).
Proof. reflexivity. Qed.

Lemma length_record e prev : (length (record e prev) <= 20)%nat.
Proof. unfold record. simpl. rewrite length_take. lia. Qed.

Lemma syncHistory_process rs p :
  (length (syncHistory p) <= 20)%nat ->
  syncHistory (process rs p) =
  take 20 (reverse (entry <$> rs) ++ syncHistory p).
Proof.
  revert p. induction rs as [|r rs IH]; intros p Hp.
  - simpl. symmetry. apply take_ge. exact Hp.
  - change (process (r :: rs) p) with (process rs (handle r p)).
    rewrite IH by (rewrite syncHistory_handle; apply length_record).
    rewrite syncHistory_handle, record_take, take_app_take.
    rewrite fmap_cons, reverse_cons, <- app_assoc. reflexivity.
Qed.

(** At capacity the entry that leaves is the oldest one, the last of the
    list; the others keep their order behind the new entry. *)
Lemma record_at_capacity e kept oldest :
  length (kept ++ [oldest]) = 20%nat ->
  record e (kept ++ [oldest]) = e :: kept.
Proof.
  intros Hlen. unfold record. f_equal.
  rewrite length_app in Hlen. simpl in Hlen.
  rewrite take_app_le by lia. apply take_ge. lia.
Qed.

(** C7. Whatever sequence of repository updates and sync errors the panel
    records, starting from its empty history, the history never holds more
    than 20 entries and it holds exactly the 20 most recently recorded ones,
    newest first: recording an entry puts it in front and keeps the first 20
    of the result, so the entry evicted at capacity is the oldest. *)
Theorem syncHistory_bounded_fifo (rs : list Recorded) :
  (length (syncHistory (process rs initial)) <= 20)%nat /\
  syncHistory (process rs initial) = take 20 (reverse (entry <$> rs)) /\
  (forall r p, syncHistory (handle r p) = take 20 (entry r :: syncHistory p)).
Proof.
  assert (H : syncHistory (process rs initial)
              = take 20 (reverse (entry <$> rs))).
  { rewrite syncHistory_process by (simpl; lia).
    simpl. rewrite app_nil_r. reflexivity. }
  split; [|split].
  - rewrite H, length_take. lia.
  - exact H.
  - intros r p. rewrite syncHistory_handle. apply record_take.
Qed.

End History.

(** ** The repository table *)

Section Repositories.
Import Panel.

Lemma list_find_insert_neither {A} (P : A -> Prop) `{!forall x, Decision (P x)}
  (l : list A) (i : nat) (x z : A) :
  l !! i = Some z -> ~ P z -> ~ P x ->
  list_find P (<[i:=x]> l) = list_find P l.
Proof.
  revert i. induction l as [|y l IH]; intros i Hi Hz Hx; [done|].
  destruct i as [|i]; simpl in *.
  - injection Hi as ->. rewrite !decide_False by done. reflexivity.
  - destruct (decide (P y)); [done|]. by rewrite (IH i).
Qed.

Lemma list_find_insert_found {A} (P : A -> Prop) `{!forall x, Decision (P x)}
  (l : list A) (i : nat) (x z : A) :
  list_find P l = Some (i, z) -> P x ->
  list_find P (<[i:=x]> l) = Some (i, x).
Proof.
  revert i. induction l as [|y l IH]; intros i Hi Hx; [done|].
  simpl in Hi. destruct (decide (P y)) as [Hy|Hy].
  - injection Hi as <- <-. simpl. by rewrite decide_True.
  - destruct (list_find P l) as [[j w]|] eqn:Hl; [|done].
    injection Hi as <- <-. simpl. rewrite decide_False by done.
    by rewrite (IH j).
Qed.

Lemma list_find_snoc_fresh {A} (P : A -> Prop) `{!forall x, Decision (P x)}
  (l : list A) (x : A) :
  list_find P l = None -> P x ->
  list_find P (l ++ [x]) = Some (length l, x).
Proof.
  intros Hl Hx. rewrite list_find_app_r by done.
  simpl. by rewrite decide_True.
Qed.

Lemma list_find_snoc_other {A} (P : A -> Prop) `{!forall x, Decision (P x)}
  (l : list A) (x : A) :
  ~ P x -> list_find P (l ++ [x]) = list_find P l.
Proof.
  intros Hx. destruct (list_find P l) as [[j w]|] eqn:Hl.
  - by apply list_find_app_l.
  - rewrite list_find_app_r by done. simpl. by rewrite decide_False.
Qed.

(** The row of the updated repository after [handleRepoUpdate]. *)
Lemma row_handleRepoUpdate now now' data p :
  row (ev_repository data) (handleRepoUpdate now now' data p) =
  Some {| name := ev_repository data; lastUpdate := Some now;
          hasChanges := true; lastEvent := Some data |}.
Proof.
  unfold row, handleRepoUpdate, updateRepositories. simpl.
  destruct (list_find _ (repositories p)) as [[i ex]|] eqn:Hfind.
  - pose proof Hfind as (_ & Hname & _)%list_find_Some.
    rewrite (list_find_insert_found _ _ _ _ _ Hfind) by done.
    simpl. by rewrite Hname.
  - by rewrite list_find_snoc_fresh.
Qed.

(** [handleRepoUpdate] leaves the rows of the other repositories alone. *)
Lemma row_handleRepoUpdate_other repo now now' data p :
  ev_repository data <> repo ->
  row repo (handleRepoUpdate now now' data p) = row repo p.
Proof.
  intros Hne. unfold row, handleRepoUpdate, updateRepositories. simpl.
  destruct (list_find _ (repositories p)) as [[i ex]|] eqn:Hfind.
  - apply list_find_Some in Hfind as (Hi & Hname & _).
    rewrite (list_find_insert_neither _ _ _ _ ex); [done|done|..];
      simpl; congruence.
  - rewrite list_find_snoc_other; [done|]. simpl. congruence.
Qed.

Lemma row_handleSyncError repo now data p :
  row repo (handleSyncError now data p) = row repo p.
Proof. reflexivity. Qed.

Lemma process_snoc rs r p : process (rs ++ [r]) p = handle r (process rs p).
Proof. unfold process. by rewrite foldl_snoc. Qed.

(** After any sequence of events the stored timestamp of a repository is
    the clock reading taken while its latest update was handled. *)
Lemma stored_process repo rs p :
  stored repo (process rs p) =
  from_option Some (stored repo p) (last (clocks repo rs)).
Proof.
  induction rs as [|r rs IH] using rev_ind; [done|].
  rewrite process_snoc. unfold clocks. rewrite omap_app. simpl.
  destruct r as [now now' data|now data]; simpl.
  - destruct (decide (ev_repository data = repo)) as [<-|Hne]; simpl.
    + rewrite last_snoc. simpl. unfold stored.
      by rewrite row_handleRepoUpdate.
    + rewrite app_nil_r. fold (clocks repo rs). rewrite <- IH.
      unfold stored. by rewrite row_handleRepoUpdate_other.
  - rewrite app_nil_r. exact IH.
Qed.

Lemma clocks_app repo rs1 rs2 :
  clocks repo (rs1 ++ rs2) = clocks repo rs1 ++ clocks repo rs2.
Proof. apply omap_app. Qed.

End Repositories.

Section LastUpdate.
Import Panel.

Lemma foldr_max_elem_of t ts : foldr Z.max t ts ∈ t :: ts.
Proof.
  induction ts as [|u ts IH]; simpl; [apply list_elem_of_here|].
  destruct (Z.max_spec u (foldr Z.max t ts)) as [[_ ->]|[_ ->]].
  - apply elem_of_cons in IH as [IH|IH]; rewrite elem_of_cons; [by left|].
    right. by apply list_elem_of_further.
  - apply list_elem_of_further, list_elem_of_here.
Qed.

Lemma foldr_max_upper t ts x : x ∈ t :: ts -> x <= foldr Z.max t ts.
Proof.
  induction ts as [|u ts IH]; simpl; intros Hx.
  - apply list_elem_of_singleton in Hx as ->. lia.
  - assert (x = u \/ x ∈ t :: ts) as [->|Hx'].
    { apply elem_of_cons in Hx as [->|Hx];
        [right; apply list_elem_of_here|].
      apply elem_of_cons in Hx as [->|Hx]; [by left|].
      right. by apply list_elem_of_further. }
    + lia.
    + specialize (IH Hx'). lia.
Qed.

Lemma sorted_last_upper (l : list Z) m x :
  Sorted Z.le l -> last l = Some m -> x ∈ l -> x <= m.
Proof.
  intros Hs Hl Hx. apply last_Some in Hl as [l' ->].
  apply (Sorted_StronglySorted _) in Hs.
  apply elem_of_app in Hx as [Hx|Hx].
  - eapply StronglySorted_app_1_elem_of;
      [exact Hs|exact Hx|apply list_elem_of_here].
  - apply list_elem_of_singleton in Hx as ->. lia.
Qed.

Lemma sorted_maximum_last (l : list Z) :
  Sorted Z.le l -> maximum l = last l.
Proof.
  intros Hs. destruct l as [|t ts]; [done|].
  destruct (last (t :: ts)) as [m|] eqn:Hl.
  - simpl. f_equal. apply Z.le_antisymm.
    + eapply sorted_last_upper; [exact Hs|exact Hl|apply foldr_max_elem_of].
    + apply foldr_max_upper. by apply last_Some_elem_of.
  - by apply last_None in Hl.
Qed.

(** C1 (as amended). For every sequence of events handled by the panel and
    every repository, the stored last-update timestamp of the repository is
    the clock reading taken while the latest update of that repository was
    handled, whatever timestamp the update carries and whatever was stored
    before.  Hence, when these clock readings are non-decreasing, the stored
    timestamp never decreases from one point of the sequence to a later one
    and at the end it equals the largest of the readings. *)
Theorem lastUpdate_follows_clock (repo : string) (rs : list Recorded)
  (p : State) :
  Sorted Z.le (clocks repo rs) ->
  stored repo (process rs p) =
    from_option Some (stored repo p) (last (clocks repo rs)) /\
  (forall rs1 rs2, rs = rs1 ++ rs2 -> clocks repo rs1 <> [] ->
     exists t1 t2, stored repo (process rs1 p) = Some t1 /\
                   stored repo (process rs p) = Some t2 /\ t1 <= t2) /\
  (clocks repo rs <> [] ->
     stored repo (process rs p) = maximum (clocks repo rs)).
Proof.
  intros Hs. split; [apply stored_process|split].
  - intros rs1 rs2 -> Hne.
    rewrite !stored_process. rewrite clocks_app in Hs |- *.
    destruct (last (clocks repo rs1)) as [t1|] eqn:H1;
      [|by apply last_None in H1].
    rewrite last_app.
    destruct (last (clocks repo rs2)) as [t2|] eqn:H2; simpl.
    + exists t1, t2. split_and!; [done..|].
      apply (Sorted_StronglySorted _) in Hs.
      eapply StronglySorted_app_1_elem_of; [exact Hs|..];
        by apply last_Some_elem_of.
    + rewrite H1. exists t1, t1. split_and!; [done..|lia].
  - intros Hne. rewrite stored_process, sorted_maximum_last by done.
    destruct (last (clocks repo rs)) as [t|] eqn:Hl; [done|].
    by apply last_None in Hl.
Qed.

(** A WebSocket push for a repository handled at 9000, then a poll result
    for the same repository that reports the older [lastUpdate] 5000,
    handled at 9500. *)
Definition pushThenOlderPoll : list Recorded :=
  [ Update 9000 9000
      (mkRepoEvent "org/repo" (Some "main") None None None None None webhook);
    Update 9500 9500
      (mkRepoEvent "org/repo" None None None None (Some 5000) None polling) ].

Lemma lastUpdate_follows_clock_witness :
  Sorted Z.le (clocks "org/repo" pushThenOlderPoll) /\
  stored "org/repo" (process pushThenOlderPoll initial) = Some 9500.
Proof.
  assert (Hs : Sorted Z.le (clocks "org/repo" pushThenOlderPoll))
    by (repeat constructor; lia).
  split; [exact Hs|].
  exact (proj1 (lastUpdate_follows_clock "org/repo" pushThenOlderPoll
                  initial Hs)).
Defined.

(** The older poll result overwrites the row: the stored timestamp is
    neither the largest timestamp the two updates carry (9000) nor that of
    the newer update, and the row's last event is the older one. *)
Lemma lastUpdate_not_maximum_observed :
  maximum (observed "org/repo" pushThenOlderPoll) = Some 9000 /\
  stored "org/repo" (process pushThenOlderPoll initial) = Some 9500 /\
  stored "org/repo" (process pushThenOlderPoll initial)
    <> maximum (observed "org/repo" pushThenOlderPoll) /\
  (ev_lastUpdate <$>
     (row "org/repo" (process pushThenOlderPoll initial) ≫= lastEvent))
    = Some (Some 5000).
Proof. split_and!; [reflexivity..|discriminate|reflexivity]. Qed.

End LastUpdate.

(** ** Reasoning about service methods *)

(** A read of the listener table under a symbolic table is left alone by
    simplification. *)
#[local] Arguments lookup : simpl never.

(** The listeners a notification of the given kind reaches. *)
Definition subscribers (w : World) (event : string) : list Callback :=
  default [] (listeners (this w) !! event).

(** [m] never throws. *)
Definition safe {A} (m : M A) : Prop :=
  forall w, exists a, outcome (m w) = Returns a.

(** [m] leaves the observation [f] of the world as it is and only causes
    effects that satisfy [ok]. *)
Definition stable {A X} (f : World -> X) (ok : Effect -> Prop) (m : M A)
  : Prop :=
  forall w, f (world (m w)) = f w /\ Forall ok (effects (m w)).

Section Rules.
Context {X : Type} (f : World -> X) (ok : Effect -> Prop).

Lemma safe_ret {A} (a : A) : safe (ret a).
Proof. intros w. by exists a. Qed.

Lemma safe_bind {A B} (m : M A) (k : A -> M B) :
  safe m -> (forall a, safe (k a)) -> safe (bind m k).
Proof.
  intros Hm Hk w. unfold bind. destruct (Hm w) as [a Ha].
  destruct (m w) as [o w1 es]. simpl in Ha. subst o.
  destruct (Hk a w1) as [b Hb]. destruct (k a w1). by exists b.
Qed.

Lemma safe_try_catch {A} (m : M A) (h : Error -> M A) :
  (forall e, safe (h e)) -> safe (try_catch m h).
Proof.
  intros Hh w. unfold try_catch. destruct (m w) as [[a|e] w1 es].
  - by exists a.
  - destruct (Hh e w1) as [b Hb]. destruct (h e w1). by exists b.
Qed.

Lemma safe_emit e : safe (emit e).
Proof. intros w. by exists tt. Qed.

Lemma safe_gets {A} (g : Service -> A) : safe (gets g).
Proof. intros w. by eexists. Qed.

Lemma safe_update g : safe (update g).
Proof. intros w. by exists tt. Qed.

Lemma safe_browse {A} (g : Browser -> A) : safe (browse g).
Proof. intros w. by eexists. Qed.

Lemma safe_tamper g : safe (tamper g).
Proof. intros w. by exists tt. Qed.

Lemma safe_fresh : safe fresh.
Proof. intros w. by eexists. Qed.

Lemma safe_when b (m : M unit) : safe m -> safe (when b m).
Proof. destruct b; [done|]. intros _. apply safe_ret. Qed.

Lemma safe_forEach {A} (l : list A) (g : A -> M unit) :
  (forall x, safe (g x)) -> safe (forEach l g).
Proof.
  intros Hg. induction l as [|x l IH]; simpl.
  - apply safe_ret.
  - apply safe_bind; [apply Hg|intros _; exact IH].
Qed.

Lemma stable_ret {A} (a : A) : stable f ok (ret a).
Proof. intros w. split; [done|constructor]. Qed.

Lemma stable_throw {A} e : stable f ok (@throw A e).
Proof. intros w. split; [done|constructor]. Qed.

Lemma stable_bind {A B} (m : M A) (k : A -> M B) :
  stable f ok m -> (forall a, stable f ok (k a)) -> stable f ok (bind m k).
Proof.
  intros Hm Hk w. unfold bind. destruct (Hm w) as [Hf Hok].
  destruct (m w) as [[a|e] w1 es]; simpl in *; [|done].
  destruct (Hk a w1) as [Hf' Hok']. destruct (k a w1); simpl in *.
  split; [congruence|by apply Forall_app].
Qed.

Lemma stable_try_catch {A} (m : M A) (h : Error -> M A) :
  stable f ok m -> (forall e, stable f ok (h e)) ->
  stable f ok (try_catch m h).
Proof.
  intros Hm Hh w. unfold try_catch. destruct (Hm w) as [Hf Hok].
  destruct (m w) as [[a|e] w1 es]; simpl in *; [done|].
  destruct (Hh e w1) as [Hf' Hok']. destruct (h e w1); simpl in *.
  split; [congruence|by apply Forall_app].
Qed.

Lemma stable_emit e : ok e -> stable f ok (emit e).
Proof. intros He w. split; [done|by repeat constructor]. Qed.

Lemma stable_gets {A} (g : Service -> A) : stable f ok (gets g).
Proof. intros w. split; [done|constructor]. Qed.

Lemma stable_browse {A} (g : Browser -> A) : stable f ok (browse g).
Proof. intros w. split; [done|constructor]. Qed.

Lemma stable_update g :
  (forall w, f (mkWorld (g (this w)) (browser w)) = f w) ->
  stable f ok (update g).
Proof. intros Hg w. split; [apply Hg|constructor]. Qed.

Lemma stable_tamper g :
  (forall w, f (mkWorld (this w) (g (browser w))) = f w) ->
  stable f ok (tamper g).
Proof. intros Hg w. split; [apply Hg|constructor]. Qed.

Lemma stable_when b (m : M unit) : stable f ok m -> stable f ok (when b m).
Proof. destruct b; [done|]. intros _. apply stable_ret. Qed.

Lemma stable_forEach {A} (l : list A) (g : A -> M unit) :
  (forall x, stable f ok (g x)) -> stable f ok (forEach l g).
Proof.
  intros Hg. induction l as [|x l IH]; simpl.
  - apply stable_ret.
  - apply stable_bind; [apply Hg|intros _; exact IH].
Qed.

End Rules.

Lemma bind_returns {A B} (m : M A) (k : A -> M B) w a :
  outcome (m w) = Returns a ->
  bind m k w =
    mkResult (outcome (k a (world (m w)))) (world (k a (world (m w))))
      (effects (m w) ++ effects (k a (world (m w)))).
Proof.
  intros H. unfold bind. destruct (m w) as [o w1 es]. simpl in H. subst o.
  simpl. by destruct (k a w1).
Qed.

Lemma bind_throws {A B} (m : M A) (k : A -> M B) w e :
  outcome (m w) = Throws e ->
  bind m k w = mkResult (Throws e) (world (m w)) (effects (m w)).
Proof.
  intros H. unfold bind. destruct (m w) as [o w1 es]. simpl in H. by subst o.
Qed.

(** Unfolds the primitives of the monad, the compound ones first. *)
Ltac unfold_monad :=
  unfold setTimeout, setInterval, clearInterval, newWebSocket, fresh,
    notifyListeners, await, when, bind, ret, throw, try_catch, emit, gets,
    update, browse, tamper.

(** A read of the listener table under one of the three literal kinds. *)
Lemma getProperty_literal ls event :
  existsb (String.eqb event) objectPrototypeKeys = false ->
  getProperty ls event = from_option Own Undefined (ls !! event).
Proof. intros H. unfold getProperty. destruct (ls !! event); by rewrite ?H. Qed.

(** Evaluates a method symbolically: simplifies, uses the equations at
    hand for the conditions met on the way, and splits on the conditions
    that are left, innermost first. *)
Ltac crunch_step :=
  first
    [ rewrite getProperty_literal by reflexivity
    | match goal with
      | H : ?x = _ |- context [?x] =>
          first [is_var x; fail 1 | rewrite H]
      | |- context [from_option _ _ ?x] => destruct x eqn:?
      | |- context [match ?x with _ => _ end] =>
          lazymatch x with
          | context [match _ with _ => _ end] => fail
          | _ => destruct x eqn:?
          end
      end ].

Ltac crunch := simpl; repeat (crunch_step; simpl).

Lemma safe_notifyListeners event data :
  existsb (String.eqb event) objectPrototypeKeys = false ->
  safe (notifyListeners event data).
Proof.
  intros H w. unfold_monad. simpl.
  rewrite getProperty_literal by done.
  destruct (listeners (this w) !! event); by eexists.
Qed.

Lemma stable_notifyListeners {X} (f : World -> X) (ok : Effect -> Prop)
  event data :
  (forall cbs, ok (Notify event data cbs)) ->
  stable f ok (notifyListeners event data).
Proof.
  intros H w. unfold_monad. simpl.
  destruct (getProperty _ _); simpl; split; try done; repeat constructor.
  apply H.
Qed.

Create HintDb sync discriminated.

#[local] Hint Resolve safe_ret safe_emit safe_gets safe_update safe_browse
  safe_tamper safe_fresh : sync.

Ltac safety :=
  repeat first
    [ progress intros
    | solve [auto with sync]
    | apply safe_notifyListeners; reflexivity
    | apply safe_when
    | apply safe_forEach
    | apply safe_try_catch
    | apply safe_bind
    | match goal with
      | |- safe (match ?x with _ => _ end) => destruct x
      end ].

Lemma safe_setTimeout delay : safe (setTimeout delay).
Proof. unfold setTimeout. safety. Qed.

Lemma safe_setInterval interval : safe (setInterval interval).
Proof. unfold setInterval. safety. Qed.

Lemma safe_clearInterval h : safe (clearInterval h).
Proof. unfold clearInterval. safety. Qed.

#[local] Hint Resolve safe_setTimeout safe_setInterval safe_clearInterval
  : sync.

Lemma safe_pollRepositories : safe pollRepositories.
Proof. unfold pollRepositories. safety. Qed.

Lemma safe_stopPolling : safe stopPolling.
Proof. unfold stopPolling. safety. Qed.

#[local] Hint Resolve safe_pollRepositories safe_stopPolling : sync.

Lemma safe_startPolling : safe startPolling.
Proof. unfold startPolling. safety. Qed.

#[local] Hint Resolve safe_startPolling : sync.

Lemma safe_ensurePolling : safe ensurePolling.
Proof. unfold ensurePolling. safety. Qed.

Lemma safe_disconnectWebSocket : safe disconnectWebSocket.
Proof. unfold disconnectWebSocket. safety. Qed.

#[local] Hint Resolve safe_ensurePolling safe_disconnectWebSocket : sync.

Lemma safe_connectWebSocket : safe connectWebSocket.
Proof. unfold connectWebSocket. safety. Qed.

#[local] Hint Resolve safe_connectWebSocket : sync.

Lemma safe_onopen : safe onopen.
Proof. unfold onopen. safety. Qed.

Lemma safe_onerror details : safe (onerror details).
Proof. unfold onerror. safety. Qed.

Lemma safe_onclose code : safe (onclose code).
Proof. unfold onclose. safety. Qed.

Lemma safe_handleWebSocketMessage msg : safe (handleWebSocketMessage msg).
Proof. unfold handleWebSocketMessage. safety. Qed.

Lemma safe_startSync options : safe (startSync options).
Proof. unfold startSync. safety. Qed.

Lemma safe_stopSync : safe stopSync.
Proof. unfold stopSync. safety. Qed.

Lemma safe_syncRepository repoName options :
  safe (syncRepository repoName options).
Proof. unfold syncRepository. safety. Qed.

Lemma safe_pollRepositories_resume response :
  safe (pollRepositories_resume response).
Proof. unfold pollRepositories_resume. safety. Qed.

Lemma safe_timeoutFires h : safe (timeoutFires h).
Proof. unfold timeoutFires. safety. Qed.

Lemma safe_intervalFires h : safe (intervalFires h).
Proof. unfold intervalFires. safety. Qed.

(** ** Manual sync *)

(** The effect is a notification of the given kind. *)
Definition notifies (event : string) (e : Effect) : Prop :=
  exists data cbs, e = Notify event data cbs.

(** The payloads [syncRepository] builds. *)
Definition manualUpdate (repoName : string) (changes : option Changes)
  : RepoEvent :=
  {| ev_repository := repoName; ev_branch := None; ev_commits := None;
     ev_pullRequest := None; ev_action := None; ev_lastUpdate := None;
     ev_changes := changes; ev_source := manual |}.

Definition manualFailure (repoName : string) (e : Error) : ErrorEvent :=
  mkErrorEvent ("Failed to sync repository " ++ repoName)%string
    (Some (message e)) None.

Lemma syncRepository_resume_resolved w repoName changes :
  let r := syncRepository_resume repoName (Resolved changes) w in
  outcome r = Returns changes /\ world r = w /\
  effects r =
    from_option
      (fun cbs => [Notify "repo-updated"
                     (RepoUpdated (manualUpdate repoName changes)) cbs])
      [] (listeners (this w) !! "repo-updated").
Proof.
  unfold syncRepository_resume. unfold_monad.
  simpl. rewrite getProperty_literal by reflexivity.
  destruct (listeners (this w) !! "repo-updated"); simpl; done.
Qed.

Lemma syncRepository_resume_rejected w repoName e :
  let r := syncRepository_resume repoName (Rejected e) w in
  outcome r = Throws e /\ world r = w /\
  effects r =
    from_option
      (fun cbs => [Notify "sync-error"
                     (SyncError (manualFailure repoName e)) cbs])
      [] (listeners (this w) !! "sync-error").
Proof.
  unfold syncRepository_resume. unfold_monad.
  simpl. rewrite getProperty_literal by reflexivity.
  destruct (listeners (this w) !! "sync-error"); simpl; done.
Qed.

Lemma addEventListener_silent event callback w :
  effects (addEventListener event callback w) = [].
Proof.
  unfold addEventListener. unfold_monad. simpl.
  by destruct (getProperty _ _).
Qed.

Lemma removeEventListener_silent event callback w :
  effects (removeEventListener event callback w) = [].
Proof.
  unfold removeEventListener. unfold_monad. simpl.
  by destruct (getProperty _ _).
Qed.

Lemma notifyListeners_throws_silent event data w e :
  outcome (notifyListeners event data w) = Throws e ->
  effects (notifyListeners event data w) = [].
Proof.
  unfold_monad. simpl.
  by destruct (getProperty _ _).
Qed.

Lemma safe_returns {A} (m : M A) w e :
  safe m -> outcome (m w) = Throws e -> False.
Proof. intros Hs He. destruct (Hs w) as [a Ha]. congruence. Qed.

(** C5. A manual sync that fails notifies the ['sync-error'] subscribers and
    throws the error to its caller (the promise the caller awaits rejects
    with it); and no other operation of the service both throws and emits a
    ['sync-error']: whichever input throws after a ['sync-error']
    notification is a manual sync settling with a rejection, and what it
    throws is that rejection's error. *)
Theorem syncRepository_failure_emits_and_throws :
  (forall w repoName e cbs,
     listeners (this w) !! "sync-error" = Some cbs ->
     let r := syncRepository_resume repoName (Rejected e) w in
     outcome r = Throws e /\
     effects r =
       [Notify "sync-error" (SyncError (manualFailure repoName e)) cbs]) /\
  (forall i w e,
     outcome (step i w) = Throws e ->
     Exists (notifies "sync-error") (effects (step i w)) ->
     exists repoName, i = SyncSettles repoName (Rejected e)).
Proof.
  split.
  - intros w repoName e cbs Hcbs r.
    destruct (syncRepository_resume_rejected w repoName e) as (Ho & _ & He).
    split; [exact Ho|]. subst r. rewrite He, Hcbs. reflexivity.
  - intros i w e Hthrow Hemit.
    destruct i;
      try (exfalso; refine (safe_returns _ w e _ Hthrow); cbn [step];
           first [ apply safe_startSync | apply safe_stopSync
                 | apply safe_syncRepository | apply safe_connectWebSocket
                 | apply safe_disconnectWebSocket | apply safe_startPolling
                 | apply safe_stopPolling | apply safe_pollRepositories
                 | apply safe_onopen | apply safe_handleWebSocketMessage
                 | apply safe_onerror | apply safe_onclose
                 | apply safe_timeoutFires | apply safe_intervalFires
                 | apply safe_pollRepositories_resume ]);
      cbn [step] in Hthrow, Hemit.
    + destruct response as [changes|e'].
      * exfalso.
        destruct (syncRepository_resume_resolved w repoName changes)
          as (Ho & _). rewrite (bind_returns _ _ _ _ Ho) in Hthrow.
        discriminate.
      * destruct (syncRepository_resume_rejected w repoName e') as (Ho & _).
        rewrite (bind_throws _ _ _ _ Ho) in Hthrow. simpl in Hthrow.
        injection Hthrow as <-. by exists repoName.
    + rewrite addEventListener_silent in Hemit. by apply Exists_nil in Hemit.
    + rewrite removeEventListener_silent in Hemit.
      by apply Exists_nil in Hemit.
    + rewrite (notifyListeners_throws_silent _ _ _ _ Hthrow) in Hemit.
      by apply Exists_nil in Hemit.
Qed.

Lemma syncRepository_failure_emits_and_throws_witness :
  let e := HttpError "Network Error" in
  let r := syncRepository_resume "org/repo" (Rejected e) mountedWorld in
  listeners (this mountedWorld) !! "sync-error"
    = Some [Panel.handleSyncError_ref] /\
  (outcome r = Throws e /\
   effects r =
     [Notify "sync-error" (SyncError (manualFailure "org/repo" e))
        [Panel.handleSyncError_ref]]) /\
  exists repoName,
    SyncSettles "org/repo" (Rejected e) = SyncSettles repoName (Rejected e).
Proof.
  intros e r.
  assert (H : listeners (this mountedWorld) !! "sync-error"
              = Some [Panel.handleSyncError_ref]) by (vm_compute; reflexivity).
  split; [exact H|]. split.
  - exact (proj1 syncRepository_failure_emits_and_throws
             mountedWorld "org/repo" e _ H).
  - apply (proj2 syncRepository_failure_emits_and_throws
             (SyncSettles "org/repo" (Rejected e)) mountedWorld e).
    + vm_compute. reflexivity.
    + apply Exists_cons_hd.
      exists (SyncError (manualFailure "org/repo" e)),
        [Panel.handleSyncError_ref].
      vm_compute. reflexivity.
Defined.

(** C4 (as amended). When a manual sync of a repository succeeds, the
    service returns the response to its caller and notifies the
    ['repo-updated'] subscribers once, with the repository, the changes of
    the response and source [manual]; handling that notification, the panel
    makes the row of the repository carry that event as its last event
    (source [manual]) with [hasChanges = true], and puts exactly one new
    entry, with source [manual], in front of the history. *)
Theorem manual_sync_success_recorded (w : World) (repoName : string)
  (changes : option Changes) (cbs : list Callback) :
  listeners (this w) !! "repo-updated" = Some cbs ->
  let r := syncRepository_resume repoName (Resolved changes) w in
  let data := manualUpdate repoName changes in
  outcome r = Returns changes /\
  effects r = [Notify "repo-updated" (RepoUpdated data) cbs] /\
  ev_source data = manual /\
  forall now now' p,
    let p' := Panel.handleRepoUpdate now now' data p in
    Panel.row repoName p' =
      Some {| Panel.name := repoName; Panel.lastUpdate := Some now;
              Panel.hasChanges := true; Panel.lastEvent := Some data |} /\
    Panel.syncHistory p' =
      Panel.UpdateEntry now' repoName manual data
        :: take 19 (Panel.syncHistory p).
Proof.
  intros Hcbs r data.
  destruct (syncRepository_resume_resolved w repoName changes)
    as (Ho & _ & He).
  split_and!; [exact Ho| |reflexivity|].
  - subst r. rewrite He, Hcbs. reflexivity.
  - intros now now' p p'. split; [|reflexivity].
    apply (row_handleRepoUpdate now now' data p).
Qed.

(** The scenario of a successful manual sync of ["org/repo"] in the mounted
    panel: the response reports two added and one modified file, and the
    panel handles the notification at clock reading [now]. *)
Definition manualSyncScenario (now : Z) : Panel.State :=
  let r := syncRepository_resume "org/repo"
             (Resolved (Some (mkChanges 2 1 0))) mountedWorld in
  foldl (fun p e => Panel.deliver now now e p) Panel.initial (effects r).

Lemma manual_sync_success_recorded_witness :
  listeners (this mountedWorld) !! "repo-updated"
    = Some [Panel.handleRepoUpdate_ref] /\
  effects (syncRepository_resume "org/repo"
             (Resolved (Some (mkChanges 2 1 0))) mountedWorld) =
    [Notify "repo-updated"
       (RepoUpdated (manualUpdate "org/repo" (Some (mkChanges 2 1 0))))
       [Panel.handleRepoUpdate_ref]].
Proof.
  assert (H : listeners (this mountedWorld) !! "repo-updated"
              = Some [Panel.handleRepoUpdate_ref]) by (vm_compute; reflexivity).
  split; [exact H|].
  exact (proj1 (proj2 (manual_sync_success_recorded mountedWorld "org/repo"
                         (Some (mkChanges 2 1 0)) _ H))).
Defined.

(** After that manual sync the row of ["org/repo"] has [hasChanges = true],
    not [false]; its last event has source [manual], and the history holds
    the one new entry. *)
Lemma manual_sync_leaves_hasChanges_true :
  Panel.hasChanges <$> Panel.row "org/repo" (manualSyncScenario 1000)
    = Some true /\
  Panel.hasChanges <$> Panel.row "org/repo" (manualSyncScenario 1000)
    <> Some false /\
  Panel.source <$> Panel.syncHistory (manualSyncScenario 1000)
    = [Some manual].
Proof.
  split_and!; [vm_compute; reflexivity| |vm_compute; reflexivity].
  vm_compute. discriminate.
Qed.

(** ** Reconnection *)

(** The delay of a scheduled reconnection. *)
Definition delayOf (e : Effect) : option Z :=
  match e with SetTimeout _ delay => Some delay | _ => None end.

(** The delays of the reconnections scheduled by a list of effects, in
    order. *)
Definition scheduled (es : list Effect) : list Z := omap delayOf es.

(** The WebSocket closes with [code] and then every pending reconnection
    timer comes due. *)
Definition failure (code : Z) : M unit :=
  onclose code ;;
  ts <- browse timeouts ;;
  forEach ts (fun t => timeoutFires t.1).

(** A run of consecutive connection failures. *)
Definition failures (codes : list Z) : M unit := forEach codes failure.

(** The retry counter and the configuration. *)
Definition retryState (w : World) : Z * Config :=
  (retryCount (this w), config (this w)).

(** The same with the pending reconnection timers. *)
Definition retryTimers (w : World) : Z * Config * list (Handle * Z) :=
  (retryState w, timeouts (browser w)).

Definition quiet (e : Effect) : Prop := delayOf e = None.

Lemma scheduled_quiet es : Forall quiet es -> scheduled es = [].
Proof.
  induction 1 as [|e es He _ IH]; [done|].
  unfold scheduled in *. simpl. by rewrite He.
Qed.

Lemma scheduled_app es es' :
  scheduled (es ++ es') = scheduled es ++ scheduled es'.
Proof. apply omap_app. Qed.

Lemma stable_fresh {X} (f : World -> X) ok :
  (forall w,
     f (mkWorld (this w)
          (mkBrowser (Pos.succ (nextHandle (browser w)))
             (timeouts (browser w)) (intervals (browser w))
             (wsRefused (browser w)))) = f w) ->
  stable f ok fresh.
Proof. intros Hf w. split; [apply Hf|constructor]. Qed.

Lemma stable_weaken {A X Y} (f : World -> X) (g : X -> Y) ok (m : M A) :
  stable f ok m -> stable (fun w => g (f w)) ok m.
Proof. intros Hm w. destruct (Hm w) as [Hf Hok]. split; [by f_equal|done]. Qed.

Ltac stability :=
  repeat first
    [ progress intros
    | solve [auto with sync]
    | apply stable_ret
    | apply stable_throw
    | apply stable_gets
    | apply stable_browse
    | apply stable_emit; reflexivity
    | apply stable_update; reflexivity
    | apply stable_tamper; reflexivity
    | apply stable_fresh; reflexivity
    | apply stable_notifyListeners; reflexivity
    | apply stable_when
    | apply stable_forEach
    | apply stable_try_catch
    | apply stable_bind
    | match goal with
      | |- stable _ _ (match ?x with _ => _ end) => destruct x
      end ].

Section RetryState.

Lemma retry_setInterval interval :
  stable retryTimers quiet (setInterval interval).
Proof. unfold setInterval. stability. Qed.

Lemma retry_clearInterval h : stable retryTimers quiet (clearInterval h).
Proof. unfold clearInterval. stability. Qed.

#[local] Hint Resolve retry_setInterval retry_clearInterval : sync.

Lemma retry_stopPolling : stable retryTimers quiet stopPolling.
Proof. unfold stopPolling. stability. Qed.

Lemma retry_pollRepositories : stable retryTimers quiet pollRepositories.
Proof. unfold pollRepositories. stability. Qed.

#[local] Hint Resolve retry_stopPolling retry_pollRepositories : sync.

Lemma retry_startPolling : stable retryTimers quiet startPolling.
Proof. unfold startPolling. stability. Qed.

#[local] Hint Resolve retry_startPolling : sync.

Lemma retry_ensurePolling : stable retryTimers quiet ensurePolling.
Proof. unfold ensurePolling. stability. Qed.

Lemma retry_disconnectWebSocket :
  stable retryTimers quiet disconnectWebSocket.
Proof. unfold disconnectWebSocket. stability. Qed.

Lemma retry_newWebSocket : stable retryTimers quiet newWebSocket.
Proof. unfold newWebSocket. stability. Qed.

#[local] Hint Resolve retry_ensurePolling retry_disconnectWebSocket
  retry_newWebSocket : sync.

Lemma retry_connectWebSocket : stable retryTimers quiet connectWebSocket.
Proof. unfold connectWebSocket. stability. Qed.

#[local] Hint Resolve retry_connectWebSocket : sync.

Lemma retry_timeoutFires h : stable retryState quiet (timeoutFires h).
Proof.
  unfold timeoutFires. stability.
Qed.

End RetryState.

Lemma onclose_retry w code :
  code <> 1000 ->
  retryCount (this w) < maxRetries (config (this w)) ->
  let delay := (retryCount (this w) + 1) * retryDelay (config (this w)) in
  retryState (world (onclose code w))
    = (retryCount (this w) + 1, config (this w)) /\
  scheduled (effects (onclose code w)) = [delay] /\
  timeouts (browser (world (onclose code w)))
    = timeouts (browser w) ++ [(nextHandle (browser w), delay)].
Proof.
  intros Hcode Hlt. unfold onclose. unfold_monad. simpl.
  rewrite getProperty_literal by reflexivity.
  apply Z.eqb_neq in Hcode. apply Z.ltb_lt in Hlt.
  destruct (listeners (this w) !! "connection-status");
    simpl; rewrite Hcode; simpl; rewrite Hlt; simpl; done.
Qed.

Lemma onclose_exhausted w code :
  code <> 1000 ->
  ~ retryCount (this w) < maxRetries (config (this w)) ->
  retryTimers (world (onclose code w)) = retryTimers w /\
  scheduled (effects (onclose code w)) = [].
Proof.
  intros Hcode Hge. apply Z.eqb_neq in Hcode. apply Z.ltb_nlt in Hge.
  unfold onclose, ensurePolling, startPolling, stopPolling, pollRepositories.
  unfold_monad.
  destruct (usePolling (config (this w))) eqn:Hp,
    (pollingTimeout (this w)) eqn:Ht; crunch; done.
Qed.

Lemma safe_failure code : safe (failure code).
Proof.
  unfold failure. safety; first [apply safe_onclose | apply safe_timeoutFires].
Qed.

Lemma failure_after_onclose w code :
  retryState (world (failure code w)) = retryState (world (onclose code w)) /\
  scheduled (effects (failure code w)) = scheduled (effects (onclose code w)).
Proof.
  unfold failure. destruct (safe_onclose code w) as [a Ha].
  rewrite (bind_returns _ _ _ _ Ha). simpl.
  assert (Hs : stable retryState quiet
                 (ts <- browse timeouts ;;
                  forEach ts (fun t => timeoutFires t.1))).
  { stability. }
  destruct (Hs (world (onclose code w))) as [Hf Hok].
  split; [exact Hf|].
  by rewrite scheduled_app, (scheduled_quiet _ Hok), app_nil_r.
Qed.

(** One failure: below the limit it counts one more retry and schedules it
    after (new count) x [retryDelay]; at the limit it schedules nothing and
    leaves the counter alone. *)
Lemma failure_step w code :
  code <> 1000 ->
  let n := retryCount (this w) in
  let c := config (this w) in
  retryState (world (failure code w)) =
    (if n <? maxRetries c then n + 1 else n, c) /\
  scheduled (effects (failure code w)) =
    (if n <? maxRetries c then [(n + 1) * retryDelay c] else []).
Proof.
  intros Hcode n c. destruct (failure_after_onclose w code) as [-> ->].
  destruct (Z.ltb_spec n (maxRetries c)) as [Hlt|Hge].
  - destruct (onclose_retry w code Hcode Hlt) as (Hs & Hd & _). done.
  - destruct (onclose_exhausted w code Hcode) as (Hs & Hd); [subst n c; lia|].
    split; [|done]. unfold retryTimers in Hs.
    injection Hs as Hn Hc _. unfold retryState. by rewrite Hn, Hc.
Qed.

Lemma failures_scheduled codes : forall w,
  Forall (fun code => code <> 1000) codes ->
  scheduled (effects (failures codes w)) =
    (fun n => n * retryDelay (config (this w))) <$>
      seqZ (retryCount (this w) + 1)
        (Z.min (Z.of_nat (length codes))
           (maxRetries (config (this w)) - retryCount (this w))).
Proof.
  induction codes as [|code codes IH]; intros w Hcodes.
  - simpl. by rewrite seqZ_nil by lia.
  - apply Forall_cons in Hcodes as [Hcode Hcodes].
    unfold failures. simpl forEach.
    destruct (safe_failure code w) as [a Ha].
    rewrite (bind_returns _ _ _ _ Ha). simpl effects.
    rewrite scheduled_app. fold (failures codes). rewrite IH by done.
    destruct (failure_step w code Hcode) as [Hs Hd].
    unfold retryState in Hs. rewrite Hd.
    assert (retryCount (this (world (failure code w))) =
              (if retryCount (this w) <? maxRetries (config (this w))
               then retryCount (this w) + 1 else retryCount (this w)) /\
            config (this (world (failure code w))) = config (this w))
      as [-> ->] by (by simplify_eq).
    destruct (Z.ltb_spec (retryCount (this w))
                (maxRetries (config (this w)))) as [Hlt|Hge].
    + rewrite (seqZ_cons (retryCount (this w) + 1)) by (simpl length; lia).
      rewrite fmap_cons. simpl app. do 2 f_equal.
      f_equal; simpl length; lia.
    + rewrite !seqZ_nil by (simpl length; lia). reflexivity.
Qed.

(** C6. Starting with the retry counter at zero (as constructed, or after
    any successful connection), a run of consecutive non-intentional closes
    of the WebSocket, each followed by the scheduled reconnection, schedules
    the n-th reconnection after exactly n x [retryDelay], for n = 1, 2, ...
    up to [maxRetries] and no further: no ceiling is applied to the delay,
    and once [maxRetries] reconnections have been scheduled a further
    failure schedules none. *)
Theorem reconnect_backoff_linear (w : World) (codes : list Z) :
  retryCount (this w) = 0 ->
  Forall (fun code => code <> 1000) codes ->
  scheduled (effects (failures codes w)) =
    (fun n => n * retryDelay (config (this w))) <$>
      seqZ 1 (Z.min (Z.of_nat (length codes)) (maxRetries (config (this w)))).
Proof.
  intros Hzero Hcodes. rewrite failures_scheduled by done.
  rewrite Hzero. do 2 f_equal. lia.
Qed.

Lemma reconnect_backoff_linear_witness :
  retryCount (this initialWorld) = 0 /\
  Forall (fun code => code <> 1000) [1006; 1006; 1006; 1006] /\
  scheduled (effects (failures [1006; 1006; 1006; 1006] initialWorld))
    = [5000; 10000; 15000].
Proof.
  assert (H : Forall (fun code => code <> 1000) [1006; 1006; 1006; 1006])
    by (repeat constructor; discriminate).
  split; [reflexivity|]. split; [exact H|].
  exact (reconnect_backoff_linear initialWorld _ eq_refl H).
Defined.

(** ** Fallback to polling *)

(** Polling is active: the service holds the handle of an interval timer
    that is registered with the browser. *)
Definition pollingActive (w : World) : Prop :=
  exists h, pollingTimeout (this w) = Some h /\
            registered h (intervals (browser w)) = true.

(** The handle the service holds, if any, is that of a registered timer. *)
Definition consistent (w : World) : Prop :=
  forall h, pollingTimeout (this w) = Some h ->
            registered h (intervals (browser w)) = true.

Lemma registered_snoc h i l : registered h (l ++ [(h, i)]) = true.
Proof.
  unfold registered. apply bool_decide_eq_true.
  rewrite fmap_app. apply elem_of_app. right. apply list_elem_of_here.
Qed.

(** The world after the first two statements of [onclose]. *)
Definition closed (w : World) : World :=
  mkWorld (set_isConnected false (this w)) (browser w).

(** What [ensurePolling] does when polling is enabled. *)
Lemma ensurePolling_enabled w :
  usePolling (config (this w)) = true ->
  let w' := world (ensurePolling w) in
  match pollingTimeout (this w) with
  | Some h =>
      pollingTimeout (this w') = Some h /\
      intervals (browser w') = intervals (browser w)
  | None =>
      pollingTimeout (this w') = Some (nextHandle (browser w)) /\
      intervals (browser w') =
        intervals (browser w) ++
          [(nextHandle (browser w), pollingInterval (config (this w)))]
  end.
Proof.
  intros Hp. unfold ensurePolling, startPolling, stopPolling,
    pollRepositories. unfold_monad.
  destruct (pollingTimeout (this w)) as [h|] eqn:Ht; crunch; done.
Qed.

Lemma onclose_exhausted_world w code :
  code <> 1000 ->
  ~ retryCount (this w) < maxRetries (config (this w)) ->
  world (onclose code w) = world (ensurePolling (closed w)).
Proof.
  intros Hcode Hge. apply Z.eqb_neq in Hcode. apply Z.ltb_nlt in Hge.
  unfold onclose. unfold bind at 1 2 3 4 5.
  unfold update, notifyListeners, gets, when, emit, ret, throw, bind.
  crunch; unfold closed;
    match goal with H : ensurePolling _ = _ |- _ => by rewrite H end.
Qed.

(** C3. When a non-intentional close of the WebSocket finds the reconnect
    attempts exhausted (the retry counter is not below [maxRetries]) and
    [usePolling] is set, polling is active afterwards: a poll already
    running is left running, and otherwise polling is started at that
    point, under a fresh interval timer. *)
Theorem exhausted_retries_fall_back_to_polling (w : World) (code : Z) :
  consistent w ->
  code <> 1000 ->
  ~ retryCount (this w) < maxRetries (config (this w)) ->
  usePolling (config (this w)) = true ->
  let w' := world (onclose code w) in
  pollingActive w' /\
  pollingTimeout (this w') =
    Some (default (nextHandle (browser w)) (pollingTimeout (this w))).
Proof.
  intros Hcons Hcode Hge Hp w'. subst w'.
  rewrite onclose_exhausted_world by done.
  pose proof (ensurePolling_enabled (closed w) Hp) as H. simpl in H.
  destruct (pollingTimeout (this w)) as [h|] eqn:Ht; destruct H as [H1 H2].
  - split; [|exact H1]. exists h. split; [exact H1|].
    rewrite H2. by apply Hcons.
  - split; [|exact H1]. eexists. split; [exact H1|].
    rewrite H2. apply registered_snoc.
Qed.

(** The service as constructed (polling enabled by default, never started)
    after the WebSocket has failed three times over. *)
Definition afterThreeFailures : World :=
  Eval vm_compute in world (failures [1006; 1006; 1006] initialWorld).

Lemma exhausted_retries_fall_back_to_polling_witness :
  pollingTimeout (this afterThreeFailures) = None /\
  pollingActive (world (onclose 1006 afterThreeFailures)).
Proof.
  split; [reflexivity|].
  apply (exhausted_retries_fall_back_to_polling afterThreeFailures 1006).
  - intros h Hh. vm_compute in Hh. discriminate.
  - discriminate.
  - vm_compute. intros H. discriminate.
  - reflexivity.
Defined.

(** *** The handle held by the service is always live *)

(** [m] preserves the property [P] of the world. *)
Definition keeps {A} (P : World -> Prop) (m : M A) : Prop :=
  forall w, P w -> P (world (m w)).

Section Keeps.
Context (P : World -> Prop).

Lemma keeps_ret {A} (a : A) : keeps P (ret a).
Proof. by intros w. Qed.

Lemma keeps_throw {A} e : keeps P (@throw A e).
Proof. by intros w. Qed.

Lemma keeps_emit e : keeps P (emit e).
Proof. by intros w. Qed.

Lemma keeps_gets {A} (g : Service -> A) : keeps P (gets g).
Proof. by intros w. Qed.

Lemma keeps_browse {A} (g : Browser -> A) : keeps P (browse g).
Proof. by intros w. Qed.

Lemma keeps_bind {A B} (m : M A) (k : A -> M B) :
  keeps P m -> (forall a, keeps P (k a)) -> keeps P (bind m k).
Proof.
  intros Hm Hk w Hw. unfold bind. specialize (Hm w Hw).
  destruct (m w) as [[a|e] w1 es]; simpl in *; [|done].
  specialize (Hk a w1 Hm). by destruct (k a w1).
Qed.

Lemma keeps_try_catch {A} (m : M A) (h : Error -> M A) :
  keeps P m -> (forall e, keeps P (h e)) -> keeps P (try_catch m h).
Proof.
  intros Hm Hh w Hw. unfold try_catch. specialize (Hm w Hw).
  destruct (m w) as [[a|e] w1 es]; simpl in *; [done|].
  specialize (Hh e w1 Hm). by destruct (h e w1).
Qed.

Lemma keeps_when b (m : M unit) : keeps P m -> keeps P (when b m).
Proof. destruct b; [done|]. intros _. apply keeps_ret. Qed.

Lemma keeps_forEach {A} (l : list A) (g : A -> M unit) :
  (forall x, keeps P (g x)) -> keeps P (forEach l g).
Proof.
  intros Hg. induction l as [|x l IH]; simpl.
  - apply keeps_ret.
  - apply keeps_bind; [apply Hg|intros _; exact IH].
Qed.

Lemma keeps_update g :
  (forall w, P w -> P (mkWorld (g (this w)) (browser w))) ->
  keeps P (update g).
Proof. intros Hg w. apply Hg. Qed.

Lemma keeps_tamper g :
  (forall w, P w -> P (mkWorld (this w) (g (browser w)))) ->
  keeps P (tamper g).
Proof. intros Hg w. apply Hg. Qed.

Lemma keeps_notifyListeners event data : keeps P (notifyListeners event data).
Proof.
  intros w Hw. unfold notifyListeners, bind, gets. simpl.
  by destruct (getProperty _ _).
Qed.

End Keeps.

Ltac keeping :=
  repeat first
    [ progress intros
    | solve [auto with sync]
    | apply keeps_ret
    | apply keeps_throw
    | apply keeps_gets
    | apply keeps_browse
    | apply keeps_emit
    | apply keeps_notifyListeners
    | apply keeps_update; solve [auto]
    | apply keeps_tamper; solve [auto]
    | apply keeps_when
    | apply keeps_forEach
    | apply keeps_try_catch
    | apply keeps_bind
    | match goal with
      | |- keeps _ (match ?x with _ => _ end) => destruct x
      end ].

Section Consistent.

Lemma consistent_stopPolling : keeps consistent stopPolling.
Proof.
  intros w Hw. unfold stopPolling. unfold_monad. simpl.
  destruct (pollingTimeout (this w)) as [h|] eqn:Ht; simpl; [|done].
  intros h'. simpl. discriminate.
Qed.

Lemma consistent_startPolling : keeps consistent startPolling.
Proof.
  intros w _. unfold startPolling, stopPolling, pollRepositories.
  unfold_monad. simpl.
  destruct (pollingTimeout (this w)) as [h|] eqn:Ht; simpl;
    intros h'; simpl; rewrite ?Ht; simpl; intros [= <-];
    apply registered_snoc.
Qed.

#[local] Hint Resolve consistent_stopPolling consistent_startPolling : sync.

Lemma consistent_service g :
  (forall s, pollingTimeout (g s) = pollingTimeout s) ->
  keeps consistent (update g).
Proof.
  intros Hg. apply keeps_update. intros w Hw h. simpl. rewrite Hg. apply Hw.
Qed.

Lemma consistent_browser g :
  (forall b, intervals (g b) = intervals b) ->
  keeps consistent (tamper g).
Proof.
  intros Hg. apply keeps_tamper. intros w Hw h. simpl. rewrite Hg. apply Hw.
Qed.

Lemma consistent_fresh : keeps consistent fresh.
Proof. intros w Hw h. simpl. apply Hw. Qed.

#[local] Hint Resolve consistent_fresh : sync.

#[local] Hint Extern 1 (keeps consistent (update _)) =>
  apply consistent_service; reflexivity : sync.
#[local] Hint Extern 1 (keeps consistent (tamper _)) =>
  apply consistent_browser; reflexivity : sync.

Lemma consistent_step i : keeps consistent (step i).
Proof.
  destruct i; cbn [step];
    unfold startSync, stopSync, syncRepository, syncRepository_resume,
      addEventListener, removeEventListener, connectWebSocket,
      disconnectWebSocket, pollRepositories, onopen, onerror, onclose,
      handleWebSocketMessage, timeoutFires, intervalFires,
      pollRepositories_resume, ensurePolling, newWebSocket, setTimeout,
      await;
    keeping.
Qed.

(** Every world the service can reach from its construction is
    consistent. *)
Lemma consistent_run inputs w :
  consistent w -> consistent (run inputs w).1.
Proof.
  revert w. induction inputs as [|i inputs IH]; intros w Hw; [done|].
  simpl. apply IH. by apply consistent_step.
Qed.

Lemma consistent_initialWorld : consistent initialWorld.
Proof. intros h. simpl. discriminate. Qed.

End Consistent.

(** ** Intentional shutdown *)

(** A close event with the intentional code schedules no reconnection and
    leaves the retry counter and the pending timers alone, whatever the
    retry count. *)
Lemma onclose_intentional w :
  retryTimers (world (onclose 1000 w)) = retryTimers w /\
  scheduled (effects (onclose 1000 w)) = [].
Proof.
  unfold onclose. unfold_monad. simpl.
  rewrite getProperty_literal by reflexivity.
  destruct (listeners (this w) !! "connection-status"); simpl; done.
Qed.

(** [stopSync] cancels the polling timer but no pending reconnection: the
    timers [onclose] scheduled stay in the browser's queue. *)
Lemma stopSync_keeps_timeouts w :
  timeouts (browser (world (stopSync w))) = timeouts (browser w).
Proof.
  assert (Hs : stable (fun w => timeouts (browser w)) (fun _ => True)
                 stopSync).
  { unfold stopSync, disconnectWebSocket, stopPolling, clearInterval.
    repeat first
      [ progress intros
      | apply stable_gets
      | apply stable_ret
      | apply stable_emit; exact I
      | apply stable_update; reflexivity
      | apply stable_tamper; reflexivity
      | apply stable_notifyListeners; intros; exact I
      | apply stable_try_catch
      | apply stable_bind
      | match goal with
        | |- stable _ _ (match ?x with _ => _ end) => destruct x
        end ]. }
  apply Hs.
Qed.

(** The service is started with its defaults, the WebSocket closes
    abnormally (so that a reconnection is scheduled) and the service is
    stopped before the timer comes due. *)
Definition stoppedWhileRetrying : World :=
  Eval vm_compute in
    (run [StartSync noOptions; SocketCloses 1006; StopSync] initialWorld).1.

(** C2. The reconnection scheduled before [stopSync] is still pending after
    it, and when its timer comes due the service opens a new WebSocket
    although it has been stopped: the intentional shutdown closed the socket
    and cleared the polling interval but did not cancel the retry. *)
Theorem retry_fires_after_stopSync :
  socket (this stoppedWhileRetrying) = None /\
  pollingTimeout (this stoppedWhileRetrying) = None /\
  timeouts (browser stoppedWhileRetrying) = [(3%positive, 5000)] /\
  let r := step (TimeoutFires 3%positive) stoppedWhileRetrying in
  effects r = [WsNew 4%positive] /\
  socket (this (world r)) = Some 4%positive.
Proof. vm_compute. repeat split. Qed.

(** ** Polling *)

(** What a notification of one of the three kinds adds to the effects. *)
Definition notification (w : World) (event : string) (data : Payload)
  : list Effect :=
  from_option (fun cbs => [Notify event data cbs]) []
    (listeners (this w) !! event).

Lemma notifyListeners_literal w event data :
  existsb (String.eqb event) objectPrototypeKeys = false ->
  notifyListeners event data w =
    mkResult (Returns tt) w (notification w event data).
Proof.
  intros H. unfold notifyListeners, notification, bind, gets. simpl.
  rewrite getProperty_literal by done.
  by destruct (listeners (this w) !! event).
Qed.

(** The update a poll reports for a repository with pending changes. *)
Definition polledUpdate (repo : RepoStatus) : RepoEvent :=
  {| ev_repository := rs_name repo; ev_branch := None; ev_commits := None;
     ev_pullRequest := None; ev_action := None;
     ev_lastUpdate := rs_lastUpdate repo; ev_changes := rs_changes repo;
     ev_source := polling |}.

(** The notifications of one poll cycle: one per repository that reports
    pending changes, in the order of the response. *)
Definition polledUpdates (w : World) (repos : list RepoStatus)
  : list Effect :=
  concat
    ((fun repo =>
        if rs_hasChanges repo
        then notification w "repo-updated" (RepoUpdated (polledUpdate repo))
        else []) <$> repos).

Lemma forEach_polled w repos :
  forEach repos (fun repo =>
    when (rs_hasChanges repo)
      (notifyListeners "repo-updated" (RepoUpdated (polledUpdate repo)))) w
  = mkResult (Returns tt) w (polledUpdates w repos).
Proof.
  induction repos as [|repo repos IH]; [done|].
  simpl forEach. unfold bind.
  destruct (rs_hasChanges repo) eqn:Hc; simpl when.
  - rewrite notifyListeners_literal by reflexivity. simpl.
    rewrite IH. unfold polledUpdates. simpl. by rewrite Hc.
  - simpl. rewrite IH. unfold polledUpdates. simpl. by rewrite Hc.
Qed.

Definition pollFailure (e : Error) : ErrorEvent :=
  mkErrorEvent "Repository polling failed" (Some (message e)) None.

Lemma pollRepositories_resume_resolved w repositories :
  let r := pollRepositories_resume (Resolved repositories) w in
  outcome r = Returns tt /\
  isConnected (this (world r)) = true /\
  pollingTimeout (this (world r)) = pollingTimeout (this w) /\
  browser (world r) = browser w /\
  effects r =
    polledUpdates w (default [] repositories) ++
    (if isConnected (this w) then []
     else notification w "connection-status"
            (ConnectionStatus (mkStatusEvent Status.connected (Some polling)))).
Proof.
  intros r.
  assert (Hr : r =
    mkResult (Returns tt)
      (if isConnected (this w) then w
       else mkWorld (set_isConnected true (this w)) (browser w))
      (polledUpdates w (default [] repositories) ++
       (if isConnected (this w) then []
        else notification w "connection-status"
               (ConnectionStatus
                  (mkStatusEvent Status.connected (Some polling)))))).
  { subst r. unfold pollRepositories_resume, try_catch, await.
    unfold bind at 1 2 3. unfold ret at 1.
    destruct repositories as [repos|]; simpl.
    - change (forEach repos _ w) with
        (forEach repos (fun repo =>
           when (rs_hasChanges repo)
             (notifyListeners "repo-updated"
                (RepoUpdated (polledUpdate repo)))) w).
      rewrite forEach_polled. unfold_monad. unfold notification.
      destruct (isConnected (this w)) eqn:Hc; crunch;
        rewrite ?app_nil_r; done.
    - unfold_monad. unfold notification.
      destruct (isConnected (this w)) eqn:Hc; crunch;
        rewrite ?app_nil_r; done. }
  rewrite Hr. destruct (isConnected (this w)) eqn:Hc; simpl; done.
Qed.

Lemma pollRepositories_resume_rejected w e :
  let r := pollRepositories_resume (Rejected e) w in
  outcome r = Returns tt /\
  isConnected (this (world r)) = false /\
  pollingTimeout (this (world r)) = pollingTimeout (this w) /\
  config (this (world r)) = config (this w) /\
  browser (world r) = browser w /\
  effects r =
    notification w "sync-error" (SyncError (pollFailure e)) ++
    (if isConnected (this w)
     then notification w "connection-status"
            (ConnectionStatus (mkStatusEvent Status.error None))
     else []).
Proof.
  intros r. subst r. unfold pollRepositories_resume. unfold_monad.
  unfold notification.
  destruct (isConnected (this w)) eqn:Hc; crunch; done.
Qed.

Lemma intervalFires_registered w h :
  registered h (intervals (browser w)) = true ->
  effects (intervalFires h w) =
    [HttpGet (baseApiUrl (config (this w)) ++ "/github/repos/status")%string].
Proof.
  intros Hh. unfold intervalFires, pollRepositories. unfold_monad. simpl.
  rewrite Hh. reflexivity.
Qed.

(** C8 (as amended). When a poll succeeds, the service is connected
    afterwards; it emits one ['repo-updated'] per repository with pending
    changes and reports connection status [connected] (method [polling])
    only if it was not connected before.  When a poll fails, the service
    emits a ['sync-error'], is not connected afterwards, and reports
    connection status [error] only if it was connected before.  Neither
    outcome touches the polling handle or any timer of the browser: no timer
    is set or cleared, and at the next tick of a registered interval the
    status request is sent again. *)
Theorem poll_cycle_status (w : World) :
  (forall repositories,
     let r := pollRepositories_resume (Resolved repositories) w in
     isConnected (this (world r)) = true /\
     pollingTimeout (this (world r)) = pollingTimeout (this w) /\
     browser (world r) = browser w /\
     effects r =
       polledUpdates w (default [] repositories) ++
       (if isConnected (this w) then []
        else notification w "connection-status"
               (ConnectionStatus
                  (mkStatusEvent Status.connected (Some polling))))) /\
  (forall e,
     let r := pollRepositories_resume (Rejected e) w in
     isConnected (this (world r)) = false /\
     pollingTimeout (this (world r)) = pollingTimeout (this w) /\
     browser (world r) = browser w /\
     effects r =
       notification w "sync-error" (SyncError (pollFailure e)) ++
       (if isConnected (this w)
        then notification w "connection-status"
               (ConnectionStatus (mkStatusEvent Status.error None))
        else []) /\
     forall h, registered h (intervals (browser w)) = true ->
       effects (intervalFires h (world r)) =
         [HttpGet
            (baseApiUrl (config (this w)) ++ "/github/repos/status")%string]).
Proof.
  split.
  - intros repositories r.
    destruct (pollRepositories_resume_resolved w repositories)
      as (_ & Hc & Ht & Hb & He). done.
  - intros e r.
    destruct (pollRepositories_resume_rejected w e)
      as (_ & Hc & Ht & Hcfg & Hb & He).
    split_and!; [done..|].
    intros h Hh. subst r. rewrite intervalFires_registered.
    + by rewrite Hcfg.
    + by rewrite Hb.
Qed.

Lemma poll_cycle_status_witness :
  let e := HttpError "Network Error" in
  let r := pollRepositories_resume (Rejected e) mountedWorld in
  registered 2%positive (intervals (browser mountedWorld)) = true /\
  effects (intervalFires 2%positive (world r)) =
    [HttpGet "/api/github/repos/status"].
Proof.
  intros e r. split; [reflexivity|].
  destruct (proj2 (poll_cycle_status mountedWorld) e)
    as (_ & _ & _ & _ & Hnext).
  exact (Hnext 2%positive eq_refl).
Defined.

(** The panel after it has received, at clock reading [now], all the
    effects of a list. *)
Definition deliverAll (now : Z) (es : list Effect) (p : Panel.State)
  : Panel.State :=
  foldl (fun p e => Panel.deliver now now e p) p es.

(** The panel is mounted with its defaults and the first poll fails before
    the WebSocket has opened. *)
Definition firstPollFails : list Input :=
  mount true true 60 ++ [PollSettles (Rejected (HttpError "Network Error"))].

(** A poll that fails while the service is not connected reports no
    connection status at all: the only effect is the ['sync-error'], the
    service stays not connected, and the status the panel shows is still
    [connecting], not [error]. *)
Lemma failed_poll_reports_no_error_status :
  let r := pollRepositories_resume (Rejected (HttpError "Network Error"))
             mountedWorld in
  isConnected (this mountedWorld) = false /\
  effects r =
    [Notify "sync-error"
       (SyncError (pollFailure (HttpError "Network Error")))
       [Panel.handleSyncError_ref]] /\
  ~ Exists (notifies "connection-status") (effects r) /\
  st_status
    (Panel.syncStatus
       (deliverAll 1000 (run firstPollFails initialWorld).2 Panel.initial))
    = Status.connecting.
Proof.
  split_and!; [reflexivity|vm_compute; reflexivity| |vm_compute; reflexivity].
  intros H. vm_compute in H.
  apply Exists_cons in H as [(data & cbs & H)|H]; [discriminate|].
  by apply Exists_nil in H.
Qed.

(** ** Starting the service *)


Definition isSetInterval (e : Effect) : bool :=
  match e with SetInterval _ _ => true | _ => false end.


(** The effects start the polling timer. *)
Definition startsPolling (es : list Effect) : bool := existsb isSetInterval es.

(** * Further properties of the service and the panel *)

(** ** Subscriptions *)

Lemma getProperty_own ls event cbs :
  ls !! event = Some cbs -> getProperty ls event = Own cbs.
Proof. intros H. unfold getProperty. by rewrite H. Qed.

Lemma addEventListener_own w event callback cbs :
  listeners (this w) !! event = Some cbs ->
  addEventListener event callback w =
    mkResult (Returns tt)
      (mkWorld
         (set_listeners
            (<[event := cbs ++ [callback]]> (listeners (this w))) (this w))
         (browser w))
      [].
Proof.
  intros H. unfold addEventListener. unfold_monad. simpl.
  by rewrite (getProperty_own _ _ _ H).
Qed.

Lemma removeEventListener_own w event callback cbs :
  listeners (this w) !! event = Some cbs ->
  removeEventListener event callback w =
    mkResult (Returns tt)
      (mkWorld
         (set_listeners
            (<[event := filter (fun cb => cb <> callback) cbs]>
               (listeners (this w))) (this w))
         (browser w))
      [].
Proof.
  intros H. unfold removeEventListener. unfold_monad. simpl.
  by rewrite (getProperty_own _ _ _ H).
Qed.

Lemma notifyListeners_own w event data cbs :
  listeners (this w) !! event = Some cbs ->
  notifyListeners event data w =
    mkResult (Returns tt) w [Notify event data cbs].
Proof.
  intros H. unfold_monad. simpl. by rewrite (getProperty_own _ _ _ H).
Qed.

(** X1. A listener added for a kind the table has is called on the next
    notification of that kind, after the listeners registered before it and
    in their order; the listeners of the other kinds are not affected. *)
Theorem added_listener_notified_last (w : World) (event : string)
  (callback : Callback) (cbs : list Callback) (data : Payload) :
  listeners (this w) !! event = Some cbs ->
  let w' := world (addEventListener event callback w) in
  outcome (addEventListener event callback w) = Returns tt /\
  notifyListeners event data w' =
    mkResult (Returns tt) w' [Notify event data (cbs ++ [callback])] /\
  forall event', event' <> event ->
    listeners (this w') !! event' = listeners (this w) !! event'.
Proof.
  intros H w'. subst w'. rewrite (addEventListener_own _ _ _ _ H). simpl.
  split_and!; [done| |].
  - apply notifyListeners_own. simpl. apply lookup_insert_eq.
  - intros event' Hne. by rewrite lookup_insert_ne.
Qed.

Lemma added_listener_notified_last_witness :
  listeners (this initialWorld) !! "sync-error" = Some [] /\
  effects
    (notifyListeners "sync-error"
       (SyncError (mkErrorEvent "WebSocket connection error" None None))
       (world (addEventListener "sync-error" 7%nat initialWorld))) =
    [Notify "sync-error"
       (SyncError (mkErrorEvent "WebSocket connection error" None None))
       [7%nat]].
Proof.
  assert (H : listeners (this initialWorld) !! "sync-error" = Some [])
    by (vm_compute; reflexivity).
  split; [exact H|].
  destruct (added_listener_notified_last initialWorld "sync-error" 7%nat []
              (SyncError (mkErrorEvent "WebSocket connection error" None None))
              H) as (_ & Hn & _).
  rewrite Hn. reflexivity.
Defined.

(** X2. After [removeEventListener] a notification of the kind no longer
    reaches the removed callback, however many times it had been added; the
    other listeners of the kind are still called, in the same order, and the
    other kinds are not affected. *)
Theorem removed_listener_not_notified (w : World) (event : string)
  (callback : Callback) (cbs : list Callback) (data : Payload) :
  listeners (this w) !! event = Some cbs ->
  let w' := world (removeEventListener event callback w) in
  let rest := filter (fun cb => cb <> callback) cbs in
  outcome (removeEventListener event callback w) = Returns tt /\
  notifyListeners event data w' =
    mkResult (Returns tt) w' [Notify event data rest] /\
  (callback ∉ rest) /\
  (forall cb, cb <> callback -> cb ∈ cbs -> cb ∈ rest) /\
  forall event', event' <> event ->
    listeners (this w') !! event' = listeners (this w) !! event'.
Proof.
  intros H w' rest. subst w'.
  rewrite (removeEventListener_own _ _ _ _ H). simpl.
  split_and!; [done| | | |].
  - apply notifyListeners_own. simpl. apply lookup_insert_eq.
  - subst rest. rewrite list_elem_of_filter. tauto.
  - intros cb Hne Hin. subst rest. by apply list_elem_of_filter.
  - intros event' Hne. by rewrite lookup_insert_ne.
Qed.

Lemma removed_listener_not_notified_witness :
  listeners (this mountedWorld) !! "repo-updated"
    = Some [Panel.handleRepoUpdate_ref] /\
  effects
    (notifyListeners "repo-updated" (RepoUpdated (manualUpdate "org/repo" None))
       (world (removeEventListener "repo-updated" Panel.handleRepoUpdate_ref
                 mountedWorld))) =
    [Notify "repo-updated" (RepoUpdated (manualUpdate "org/repo" None)) []].
Proof.
  assert (H : listeners (this mountedWorld) !! "repo-updated"
              = Some [Panel.handleRepoUpdate_ref]) by (vm_compute; reflexivity).
  split; [exact H|].
  destruct (removed_listener_not_notified mountedWorld "repo-updated"
              Panel.handleRepoUpdate_ref _
              (RepoUpdated (manualUpdate "org/repo" None)) H)
    as (_ & Hn & _).
  rewrite Hn. reflexivity.
Defined.

Lemma filter_ne_snoc (callback : Callback) (cbs : list Callback) :
  callback ∉ cbs ->
  filter (fun cb => cb <> callback) (cbs ++ [callback]) = cbs.
Proof.
  induction cbs as [|cb cbs IH]; intros Hnot; simpl.
  - rewrite filter_cons_False by (intros H; by apply H). reflexivity.
  - apply not_elem_of_cons in Hnot as [Hne Hnot].
    rewrite filter_cons_True by congruence. by rewrite IH.
Qed.

(** X3. Adding a callback that is not yet registered for a kind and then
    removing it gives back the listener table as it was. *)
Theorem add_then_remove_restores_listeners (w : World) (event : string)
  (callback : Callback) (cbs : list Callback) :
  listeners (this w) !! event = Some cbs ->
  callback ∉ cbs ->
  listeners
    (this (world (removeEventListener event callback
                    (world (addEventListener event callback w)))))
  = listeners (this w).
Proof.
  intros H Hnot. rewrite (addEventListener_own _ _ _ _ H). simpl.
  erewrite removeEventListener_own by (simpl; apply lookup_insert_eq).
  simpl. rewrite filter_ne_snoc by done.
  rewrite insert_insert_eq. by apply insert_id.
Qed.

Lemma add_then_remove_restores_listeners_witness :
  listeners (this initialWorld) !! "connection-status" = Some [] /\
  (5%nat ∉ @nil Callback) /\
  listeners
    (this (world (removeEventListener "connection-status" 5%nat
                    (world (addEventListener "connection-status" 5%nat
                              initialWorld)))))
  = listeners (this initialWorld).
Proof.
  assert (H : listeners (this initialWorld) !! "connection-status" = Some [])
    by (vm_compute; reflexivity).
  assert (Hn : 5%nat ∉ @nil Callback) by apply not_elem_of_nil.
  split; [exact H|]. split; [exact Hn|].
  exact (add_then_remove_restores_listeners initialWorld "connection-status"
           5%nat [] H Hn).
Defined.

(** ** WebSocket messages *)

(** The update a WebSocket message announces, if any. *)
Definition webhookUpdate (msg : WsMessage) : option RepoEvent :=
  match msg with
  | GithubPush repository branch commits =>
      Some {| ev_repository := repository; ev_branch := branch;
              ev_commits := commits; ev_pullRequest := None;
              ev_action := None; ev_lastUpdate := None; ev_changes := None;
              ev_source := webhook |}
  | GithubPullRequest repository pull_request action =>
      Some {| ev_repository := repository; ev_branch := None;
              ev_commits := None; ev_pullRequest := pull_request;
              ev_action := action; ev_lastUpdate := None;
              ev_changes := None; ev_source := webhook |}
  | _ => None
  end.

(** X4. No WebSocket message is fatal: whatever the message (a frame that
    does not parse included), [handleWebSocketMessage] returns normally and
    leaves the service as it is; it notifies ['repo-updated'] once, with
    source [webhook], for a push or a pull request, and does nothing for a
    ping, another GitHub event, an unknown type or a malformed frame. *)
Theorem websocket_message_never_fatal (msg : WsMessage) (w : World) :
  let r := handleWebSocketMessage msg w in
  outcome r = Returns tt /\
  world r = w /\
  effects r =
    match webhookUpdate msg with
    | Some d => notification w "repo-updated" (RepoUpdated d)
    | None => []
    end /\
  (webhookUpdate msg = None \/
   ev_source <$> webhookUpdate msg = Some webhook) /\
  (length (effects r) <= 1)%nat.
Proof.
  intros r.
  assert (Hr : r =
    mkResult (Returns tt) w
      match webhookUpdate msg with
      | Some d => notification w "repo-updated" (RepoUpdated d)
      | None => []
      end).
  { subst r. unfold handleWebSocketMessage. unfold_monad.
    unfold notification. destruct msg; crunch; done. }
  rewrite Hr. simpl. split_and!; [done..| |].
  - destruct msg; simpl; auto.
  - unfold notification.
    destruct (webhookUpdate msg); [|simpl; lia].
    destruct (listeners (this w) !! "repo-updated"); simpl; lia.
Qed.

(** ** Closing the socket and stopping the poll *)

(** X5. [disconnectWebSocket] closes the socket the service holds, with the
    intentional code 1000, and forgets it; it leaves everything else alone,
    and calling it again does nothing. *)
Theorem disconnectWebSocket_idempotent (w : World) :
  let r := disconnectWebSocket w in
  outcome r = Returns tt /\
  world r = mkWorld (set_socket None (this w)) (browser w) /\
  effects r =
    match socket (this w) with Some h => [WsClose h 1000] | None => [] end /\
  disconnectWebSocket (world r) = mkResult (Returns tt) (world r) [].
Proof.
  intros r.
  assert (Hr : r =
    mkResult (Returns tt) (mkWorld (set_socket None (this w)) (browser w))
      match socket (this w) with Some h => [WsClose h 1000] | None => [] end).
  { subst r. unfold disconnectWebSocket. unfold_monad.
    destruct w as [s b]. destruct s as [c i so p n l].
    destruct so; reflexivity. }
  rewrite Hr. simpl. split_and!; reflexivity.
Qed.

Lemma registered_cancel h l : registered h (cancel h l) = false.
Proof.
  unfold registered, cancel. apply bool_decide_eq_false.
  intros Hin. apply list_elem_of_fmap in Hin as ([h' i] & -> & Hin).
  apply list_elem_of_filter in Hin as [Hne _]. by apply Hne.
Qed.

(** X6. [stopPolling] is idempotent: it clears the interval timer the
    service holds, after which that timer is no longer registered and the
    service holds none; called when no timer is held, again or for the first
    time, it does nothing at all. *)
Theorem stopPolling_idempotent (w : World) :
  let r := stopPolling w in
  outcome r = Returns tt /\
  pollingTimeout (this (world r)) = None /\
  effects r =
    match pollingTimeout (this w) with
    | Some h => [ClearInterval h]
    | None => []
    end /\
  (forall h, pollingTimeout (this w) = Some h ->
     registered h (intervals (browser (world r))) = false) /\
  timeouts (browser (world r)) = timeouts (browser w) /\
  stopPolling (world r) = mkResult (Returns tt) (world r) [].
Proof.
  intros r. subst r. unfold stopPolling. unfold_monad.
  destruct (pollingTimeout (this w)) as [h|] eqn:Ht; simpl; rewrite ?Ht.
  - split_and!; try reflexivity.
    intros h' [= <-]. apply registered_cancel.
  - split_and!; try reflexivity. intros h' [=].
Qed.

Lemma stopPolling_idempotent_witness :
  pollingTimeout (this mountedWorld) = Some 2%positive /\
  registered 2%positive (intervals (browser (world (stopPolling mountedWorld))))
    = false.
Proof.
  split; [reflexivity|].
  destruct (stopPolling_idempotent mountedWorld) as (_ & _ & _ & H & _).
  exact (H 2%positive eq_refl).
Defined.

(** ** The polling timer never leaks *)

(** The only interval timer registered with the browser is the one whose
    handle the service holds. *)
Definition tidy (w : World) : Prop :=
  match pollingTimeout (this w) with
  | Some h => exists interval, intervals (browser w) = [(h, interval)]
  | None => intervals (browser w) = []
  end.

Section Tidy.

Lemma cancel_single h i : cancel h [(h, i)] = [].
Proof. unfold cancel. by rewrite filter_cons_False by (intros H; by apply H). Qed.

Lemma tidy_stopPolling : keeps tidy stopPolling.
Proof.
  intros w Hw. unfold tidy in *. unfold stopPolling. unfold_monad.
  destruct (pollingTimeout (this w)) as [h|] eqn:Ht; simpl; rewrite ?Ht.
  - destruct Hw as [i ->]. apply cancel_single.
  - exact Hw.
Qed.

Lemma tidy_startPolling : keeps tidy startPolling.
Proof.
  intros w Hw. unfold tidy in *.
  unfold startPolling, stopPolling, pollRepositories. unfold_monad.
  destruct (pollingTimeout (this w)) as [h|] eqn:Ht; simpl; rewrite ?Ht.
  - destruct Hw as [i ->]. rewrite cancel_single. by eexists.
  - rewrite Hw. by eexists.
Qed.

#[local] Hint Resolve tidy_stopPolling tidy_startPolling : sync.

Lemma tidy_service g :
  (forall s, pollingTimeout (g s) = pollingTimeout s) ->
  keeps tidy (update g).
Proof.
  intros Hg. apply keeps_update. intros w Hw. unfold tidy in *. simpl.
  by rewrite Hg.
Qed.

Lemma tidy_browser g :
  (forall b, intervals (g b) = intervals b) ->
  keeps tidy (tamper g).
Proof.
  intros Hg. apply keeps_tamper. intros w Hw. unfold tidy in *. simpl.
  by rewrite Hg.
Qed.

Lemma tidy_fresh : keeps tidy fresh.
Proof. intros w Hw. exact Hw. Qed.

#[local] Hint Resolve tidy_fresh : sync.

#[local] Hint Extern 1 (keeps tidy (update _)) =>
  apply tidy_service; reflexivity : sync.
#[local] Hint Extern 1 (keeps tidy (tamper _)) =>
  apply tidy_browser; reflexivity : sync.

Lemma tidy_step i : keeps tidy (step i).
Proof.
  destruct i; cbn [step];
    unfold startSync, stopSync, syncRepository, syncRepository_resume,
      addEventListener, removeEventListener, connectWebSocket,
      disconnectWebSocket, pollRepositories, onopen, onerror, onclose,
      handleWebSocketMessage, timeoutFires, intervalFires,
      pollRepositories_resume, ensurePolling, newWebSocket, setTimeout,
      await;
    keeping.
Qed.

End Tidy.

(** X7. Whatever happens to the service (any sequence of method calls,
    WebSocket events, timers and settled requests), if the only interval
    timer registered with the browser is the one whose handle the service
    holds, as it is when the service is constructed, then this stays so:
    [startPolling] always clears the previous interval before it sets a new
    one, so restarting never leaves an interval behind. *)
Theorem polling_interval_never_leaks (inputs : list Input) (w : World) :
  tidy w -> tidy (run inputs w).1.
Proof.
  revert w. induction inputs as [|i inputs IH]; intros w Hw; [done|].
  simpl. apply IH. by apply tidy_step.
Qed.

Lemma polling_interval_never_leaks_witness :
  let inputs := [ StartSync noOptions; StartPolling; SocketCloses 1006;
                  StartSync noOptions ] in
  tidy initialWorld /\
  intervals (browser (run inputs initialWorld).1) = [(6%positive, 60000)].
Proof.
  intros inputs.
  assert (H : tidy initialWorld) by reflexivity.
  split; [exact H|].
  pose proof (polling_interval_never_leaks inputs initialWorld H) as Ht.
  unfold tidy in Ht.
  assert (Hp : pollingTimeout (this (run inputs initialWorld).1)
               = Some 6%positive) by (vm_compute; reflexivity).
  rewrite Hp in Ht. destruct Ht as [i Hi]. rewrite Hi.
  assert (Hi' : intervals (browser (run inputs initialWorld).1)
                = [(6%positive, 60000)]) by (vm_compute; reflexivity).
  rewrite Hi in Hi'. exact Hi'.
Defined.

Lemma stopSync_spec (w : World) :
  tidy w ->
  let r := stopSync w in
  outcome r = Returns tt /\
  socket (this (world r)) = None /\
  pollingTimeout (this (world r)) = None /\
  isConnected (this (world r)) = false /\
  intervals (browser (world r)) = [] /\
  listeners (this (world r)) = listeners (this w).
Proof.
  intros Hw r. subst r. unfold tidy in Hw.
  unfold stopSync, disconnectWebSocket, stopPolling. unfold_monad.
  destruct (pollingTimeout (this w)) as [po|] eqn:Ht;
    [destruct Hw as [i Hw]|];
    destruct (socket (this w)) as [so|] eqn:Hs;
    crunch; rewrite ?cancel_single; done.
Qed.

(** X8. [stopSync] releases what the service holds: afterwards it holds no
    socket and no polling handle, it is not connected, no interval timer is
    registered with the browser, and it never throws. *)
Theorem stopSync_releases (w : World) :
  tidy w ->
  let r := stopSync w in
  outcome r = Returns tt /\
  socket (this (world r)) = None /\
  pollingTimeout (this (world r)) = None /\
  isConnected (this (world r)) = false /\
  intervals (browser (world r)) = [].
Proof.
  intros Hw r. destruct (stopSync_spec w Hw) as (H1 & H2 & H3 & H4 & H5 & _).
  done.
Qed.

Lemma stopSync_releases_witness :
  tidy mountedWorld /\
  intervals (browser mountedWorld) = [(2%positive, 60000)] /\
  intervals (browser (world (stopSync mountedWorld))) = [].
Proof.
  assert (H : tidy mountedWorld) by (by exists 60000).
  split; [exact H|]. split; [reflexivity|].
  destruct (stopSync_releases mountedWorld H) as (_ & _ & _ & _ & Hi).
  exact Hi.
Defined.

(** ** Opening the socket *)

(** The [close] call [connectWebSocket] makes on the socket it replaces. *)
Definition closesHeld (w : World) : list Effect :=
  match socket (this w) with Some h => [WsClose h 1000] | None => [] end.

(** X9. When the browser accepts the connection, [connectWebSocket] first
    closes the socket the service holds, if any, with the intentional code,
    then opens exactly one new socket, which becomes the one it holds; the
    retry counter, the pending retries, the polling handle and the
    connection flag are left as they are. *)
Theorem connectWebSocket_replaces_socket (w : World) :
  wsRefused (browser w) = false ->
  let r := connectWebSocket w in
  outcome r = Returns tt /\
  socket (this (world r)) = Some (nextHandle (browser w)) /\
  effects r = closesHeld w ++ [WsNew (nextHandle (browser w))] /\
  retryTimers (world r) = retryTimers w /\
  pollingTimeout (this (world r)) = pollingTimeout (this w) /\
  isConnected (this (world r)) = isConnected (this w).
Proof.
  intros Hr r. subst r.
  unfold connectWebSocket, disconnectWebSocket, closesHeld. unfold_monad.
  destruct (socket (this w)) as [so|] eqn:Hs; crunch; done.
Qed.

Lemma connectWebSocket_replaces_socket_witness :
  wsRefused (browser mountedWorld) = false /\
  effects (connectWebSocket mountedWorld) =
    [WsClose 1%positive 1000; WsNew 3%positive].
Proof.
  split; [reflexivity|].
  destruct (connectWebSocket_replaces_socket mountedWorld eq_refl)
    as (_ & _ & He & _).
  rewrite He. reflexivity.
Defined.





(** ** What a poll reports *)

Lemma polledUpdates_changed w repos cbs :
  listeners (this w) !! "repo-updated" = Some cbs ->
  polledUpdates w repos =
    (fun repo => Notify "repo-updated" (RepoUpdated (polledUpdate repo)) cbs)
      <$> filter (fun repo => rs_hasChanges repo = true) repos.
Proof.
  intros H. unfold polledUpdates, notification. rewrite H. simpl.
  induction repos as [|repo repos IH]; [done|].
  rewrite fmap_cons. simpl concat. rewrite IH.
  destruct (rs_hasChanges repo) eqn:Hc.
  - by rewrite filter_cons_True.
  - rewrite filter_cons_False; [done|]. rewrite Hc. discriminate.
Qed.

(** X12. A poll that succeeds notifies ['repo-updated'] exactly once for
    each repository of the response that reports pending changes, in the
    order of the response and with source [polling], the name, the
    [lastUpdate] and the changes the backend reported; a repository without
    pending changes is not reported.  The only other effect is the
    connection status [connected], when the service was not connected. *)
Theorem poll_reports_changed_repositories (w : World)
  (repos : list RepoStatus) (cbs : list Callback) :
  listeners (this w) !! "repo-updated" = Some cbs ->
  effects (pollRepositories_resume (Resolved (Some repos)) w) =
    ((fun repo => Notify "repo-updated" (RepoUpdated (polledUpdate repo)) cbs)
       <$> filter (fun repo => rs_hasChanges repo = true) repos) ++
    (if isConnected (this w) then []
     else notification w "connection-status"
            (ConnectionStatus (mkStatusEvent Status.connected (Some polling)))).
Proof.
  intros H.
  destruct (pollRepositories_resume_resolved w (Some repos))
    as (_ & _ & _ & _ & He).
  rewrite He. simpl. by rewrite (polledUpdates_changed _ _ _ H).
Qed.

Lemma poll_reports_changed_repositories_witness :
  let changed := mkRepoStatus "org/a" true (Some 5000)
                   (Some (mkChanges 1 0 0)) in
  let unchanged := mkRepoStatus "org/b" false (Some 4000) None in
  listeners (this mountedWorld) !! "repo-updated"
    = Some [Panel.handleRepoUpdate_ref] /\
  effects (pollRepositories_resume (Resolved (Some [unchanged; changed]))
             mountedWorld) =
    [ Notify "repo-updated" (RepoUpdated (polledUpdate changed))
        [Panel.handleRepoUpdate_ref];
      Notify "connection-status"
        (ConnectionStatus (mkStatusEvent Status.connected (Some polling)))
        [Panel.handleConnectionStatus_ref] ].
Proof.
  intros changed unchanged.
  assert (H : listeners (this mountedWorld) !! "repo-updated"
              = Some [Panel.handleRepoUpdate_ref]) by (vm_compute; reflexivity).
  split; [exact H|].
  rewrite (poll_reports_changed_repositories mountedWorld
             [unchanged; changed] _ H).
  vm_compute. reflexivity.
Defined.

(** ** At most one socket *)

(** The sockets the service has opened and not closed, as the effects
    show. *)
Definition trackSockets (opened : list Handle) (e : Effect) : list Handle :=
  match e with
  | WsNew h => opened ++ [h]
  | WsClose h _ => filter (fun h' => h' <> h) opened
  | _ => opened
  end.

Definition openSockets (es : list Effect) : list Handle :=
  foldl trackSockets [] es.

(** The socket the service holds. *)
Definition held (w : World) : list Handle :=
  match socket (this w) with Some h => [h] | None => [] end.

(** The effect neither opens nor closes a socket. *)
Definition socketFree (e : Effect) : Prop :=
  match e with WsNew _ | WsClose _ _ => False | _ => True end.

(** [m] closes what it forgets and holds what it opens. *)
Definition tracks {A} (m : M A) : Prop :=
  forall w, foldl trackSockets (held w) (effects (m w)) = held (world (m w)).

Section Tracks.

Lemma tracks_bind {A B} (m : M A) (k : A -> M B) :
  tracks m -> (forall a, tracks (k a)) -> tracks (bind m k).
Proof.
  intros Hm Hk w. unfold bind. specialize (Hm w).
  destruct (m w) as [[a|e] w1 es]; simpl in *; [|done].
  specialize (Hk a w1). destruct (k a w1) as [o w2 es']. simpl in *.
  by rewrite foldl_app, Hm.
Qed.

Lemma tracks_try_catch {A} (m : M A) (h : Error -> M A) :
  tracks m -> (forall e, tracks (h e)) -> tracks (try_catch m h).
Proof.
  intros Hm Hh w. unfold try_catch. specialize (Hm w).
  destruct (m w) as [[a|e] w1 es]; simpl in *; [done|].
  specialize (Hh e w1). destruct (h e w1) as [o w2 es']. simpl in *.
  by rewrite foldl_app, Hm.
Qed.

Lemma tracks_stable {A} (m : M A) :
  stable (fun w => socket (this w)) socketFree m -> tracks m.
Proof.
  intros Hm w. destruct (Hm w) as [Hs Hok]. unfold held. rewrite Hs.
  generalize (match socket (this w) with Some h => [h] | None => [] end).
  induction Hok as [|e es He _ IH]; intros l; [done|].
  simpl. rewrite <- IH. by destruct e.
Qed.

Lemma tracks_when b (m : M unit) : tracks m -> tracks (when b m).
Proof. destruct b; [done|]. intros _ w. reflexivity. Qed.

Lemma tracks_disconnectWebSocket : tracks disconnectWebSocket.
Proof.
  intros w. unfold disconnectWebSocket, held. unfold_monad.
  destruct (socket (this w)) as [so|] eqn:Hs; simpl; [|by rewrite Hs].
  by rewrite filter_cons_False by (intros H; by apply H).
Qed.

Lemma tracks_connectWebSocket : tracks connectWebSocket.
Proof.
  unfold connectWebSocket. apply tracks_try_catch.
  - intros w. unfold disconnectWebSocket, held. unfold_monad.
    destruct (socket (this w)) as [so|] eqn:Hs,
      (wsRefused (browser w)) eqn:Hr; crunch;
      rewrite ?filter_cons_False by (intros H; by apply H); done.
  - intros e. apply tracks_stable. stability.
Qed.

End Tracks.

Ltac tracking :=
  repeat first
    [ progress intros
    | exact tracks_connectWebSocket
    | exact tracks_disconnectWebSocket
    | apply tracks_bind
    | apply tracks_when
    | match goal with
      | |- tracks (match ?x with _ => _ end) => destruct x
      end
    | apply tracks_stable; solve [stability] ].

Lemma tracks_step i : tracks (step i).
Proof.
  destruct i; cbn [step];
    unfold syncRepository_resume, pollRepositories_resume, await;
    try (apply tracks_stable; solve [stability]);
    unfold startSync, stopSync, timeoutFires; tracking.
Qed.

(** X13. Whatever happens to the service (any sequence of method calls,
    WebSocket events, timers and settled requests, in a browser that
    accepts or refuses connections), the sockets it has opened and not
    closed are those it had at the start, less the one it held then, plus
    the one it holds now.  In particular, from its construction on it has
    at most one socket opened and not closed, the one it holds: it closes
    the socket it holds before it opens another, and when it stops. *)
Theorem at_most_one_socket (inputs : list Input) :
  (forall w, foldl trackSockets (held w) (run inputs w).2
             = held (run inputs w).1) /\
  openSockets (run inputs initialWorld).2 = held (run inputs initialWorld).1.
Proof.
  assert (H : forall w,
            foldl trackSockets (held w) (run inputs w).2
            = held (run inputs w).1).
  { induction inputs as [|i inputs IH]; intros w; [done|].
    simpl. rewrite foldl_app, tracks_step. apply IH. }
  split; [exact H|]. apply (H initialWorld).
Qed.

(** ** The repository table as a keyed store *)

Section Upsert.
Import Panel.

(** The names of the rows, in table order. *)
Definition names (p : State) : list string := name <$> repositories p.

Lemma names_handleRepoUpdate now now' data p :
  names (handleRepoUpdate now now' data p) =
    if bool_decide (ev_repository data ∈ names p) then names p
    else names p ++ [ev_repository data].
Proof.
  unfold names, handleRepoUpdate, updateRepositories. simpl.
  destruct (list_find _ (repositories p)) as [[i ex]|] eqn:Hfind.
  - apply list_find_Some in Hfind as (Hi & Hname & _).
    rewrite bool_decide_true.
    + rewrite list_fmap_insert. simpl. apply list_insert_id.
      by rewrite list_lookup_fmap, Hi.
    + rewrite <- Hname. apply list_elem_of_fmap_2.
      by eapply list_elem_of_lookup_2.
  - apply list_find_None in Hfind.
    rewrite bool_decide_false.
    + by rewrite fmap_app.
    + intros (r & Hr & Hin)%list_elem_of_fmap.
      rewrite Forall_forall in Hfind. by apply (Hfind r Hin).
Qed.

(** X14. [handleRepoUpdate] is an upsert keyed by the repository name: for
    a repository the table already has, the rows keep their names, number
    and order; for a repository it does not have, exactly one row with that
    name is added at the end.  Hence a table without duplicate names never
    gets one. *)
Theorem handleRepoUpdate_upserts (now now' : Z) (data : RepoEvent)
  (p : State) :
  let p' := handleRepoUpdate now now' data p in
  names p' =
    (if bool_decide (ev_repository data ∈ names p) then names p
     else names p ++ [ev_repository data]) /\
  (ev_repository data ∈ names p') /\
  (NoDup (names p) -> NoDup (names p')).
Proof.
  intros p'. subst p'. rewrite names_handleRepoUpdate.
  case_bool_decide as Hin; split_and!; try done.
  - apply elem_of_app. right. apply list_elem_of_here.
  - intros Hnd. apply NoDup_app. split_and!; [done| |apply NoDup_singleton].
    intros x Hx ->%list_elem_of_singleton. done.
Qed.

Lemma handleRepoUpdate_upserts_witness :
  NoDup (names initial) /\
  NoDup (names (handleRepoUpdate 1000 1000 (manualUpdate "org/repo" None)
                  initial)).
Proof.
  assert (H : NoDup (names initial)) by apply NoDup_nil_2.
  split; [exact H|].
  exact (proj2 (proj2 (handleRepoUpdate_upserts 1000 1000
                         (manualUpdate "org/repo" None) initial)) H).
Defined.

(** The events of the list that are updates of the repository. *)
Definition touches (repo : string) (r : Recorded) : Prop :=
  match r with
  | Update _ _ data => ev_repository data = repo
  | Failure _ _ => False
  end.

(** X15. Events are handled per repository: a sync error, or an update of
    another repository, never changes the row of a repository.  Over any
    sequence of events none of which is an update of the repository, its
    row (and so its stored timestamp, its flag and its last event) stays
    what it was. *)
Theorem other_events_leave_row (repo : string) (rs : list Recorded)
  (p : State) :
  Forall (fun r => ~ touches repo r) rs ->
  row repo (process rs p) = row repo p.
Proof.
  induction rs as [|r rs IH] using rev_ind; intros Hrs; [done|].
  apply Forall_app in Hrs as [Hrs Hr]. rewrite Forall_singleton in Hr.
  rewrite process_snoc. destruct r as [now now' data|now data]; simpl.
  - rewrite row_handleRepoUpdate_other by exact Hr. by apply IH.
  - by apply IH.
Qed.

Lemma other_events_leave_row_witness :
  let rs := [ Update 1000 1000 (manualUpdate "org/other" None);
              Failure 1001 (mkErrorEvent "Repository polling failed" None
                              None) ] in
  Forall (fun r => ~ touches "org/repo" r) rs /\
  row "org/repo" (process rs (process pushThenOlderPoll initial))
    = row "org/repo" (process pushThenOlderPoll initial).
Proof.
  intros rs.
  assert (H : Forall (fun r => ~ touches "org/repo" r) rs).
  { repeat constructor; simpl; [discriminate|tauto]. }
  split; [exact H|].
  exact (other_events_leave_row "org/repo" rs _ H).
Defined.

(** X16. The status the panel shows is the last one reported: after any
    non-empty sequence of connection-status events, [syncStatus] is the
    payload of the last event; the error banner is set when that event
    reports [error] and cleared when it reports [connected]; the repository
    table and the history are not touched. *)
Theorem syncStatus_is_last_reported (ds : list StatusEvent)
  (d : StatusEvent) (p : State) :
  let p' := foldl (fun p d => handleConnectionStatus d p) p (ds ++ [d]) in
  syncStatus p' = d /\
  repositories p' = repositories p /\
  syncHistory p' = syncHistory p /\
  match st_status d with
  | Status.error =>
      error p' = Some "Connection error. Check network or server status."
  | Status.connected => error p' = None
  | _ => error p' = error (foldl (fun p d => handleConnectionStatus d p) p ds)
  end.
Proof.
  intros p'. subst p'. rewrite foldl_snoc.
  assert (H : forall q,
            repositories (foldl (fun p d => handleConnectionStatus d p) q ds)
              = repositories q /\
            syncHistory (foldl (fun p d => handleConnectionStatus d p) q ds)
              = syncHistory q).
  { induction ds as [|d' ds IH]; intros q; [done|].
    simpl. destruct (IH (handleConnectionStatus d' q)) as [-> ->]. done. }
  destruct (H p) as [Hr Hh]. simpl.
  split_and!; [done..|]. by destruct (st_status d).
Qed.

End Upsert.

(** ** The panel's sync actions *)

Module Actions.

(** The panel state together with its [loading] flag. *)
Record View := mkView { panel : Panel.State; loading : bool }.

(** The application: the service in its browser, and the panel. *)
Record App := mkApp { service : World; view : View }.

Definition setLoading (b : bool) (a : App) : App :=
  mkApp (service a) (mkView (panel (view a)) b).

Definition setError (msg : string) (a : App) : App :=
  mkApp (service a)
    (mkView
       {| Panel.repositories := Panel.repositories (panel (view a));
          Panel.syncStatus := Panel.syncStatus (panel (view a));
          Panel.error := Some msg;
          Panel.syncHistory := Panel.syncHistory (panel (view a)) |}
       (loading (view a))).

(** A service method run from the panel: the notifications it emits reach
    the handlers of the panel that are registered, at clock reading
    [now]. *)
Definition call {A} (now : Z) (m : M A) (a : App)
  : Outcome A * App * list Effect :=
  let r := m (service a) in
  (outcome r,
   mkApp (world r)
     (mkView (deliverAll now (effects r) (panel (view a)))
        (loading (view a))),
   effects r).

(** [handleManualSync(repoName)], up to its [await]. *)
Definition handleManualSync (now : Z) (repoName : string) (a : App)
  : App * list Effect :=
  let '(_, a1, es) := call now (syncRepository repoName "{}")
                        (setLoading true a) in
  (a1, es).

(** [handleManualSync], from its [await] on: the sync request has settled
    with [response]. *)
Definition handleManualSync_resume (now : Z) (repoName : string)
  (response : Settled (option Changes)) (a : App) : App * list Effect :=
  let '(o, a1, es) := call now (syncRepository_resume repoName response) a in
  match o with
  | Returns _ => (setLoading false a1, es)
  | Throws e =>
      (setLoading false
         (setError ("Manual sync failed: " ++ message e)%string a1), es)
  end.

(** The loop of [handleSyncAll]: one [await]ed [syncRepository] per entry,
    in order, each with the way its request settles; an exception leaves
    the loop.  No other event is taken to arrive in between. *)
Fixpoint syncEach (now : Z)
  (todo : list (string * Settled (option Changes))) (a : App)
  : option Error * App * list Effect :=
  match todo with
  | [] => (None, a, [])
  | (repoName, response) :: rest =>
      let '(_, a1, es1) := call now (syncRepository repoName "{}") a in
      let '(o, a2, es2) :=
        call now (syncRepository_resume repoName response) a1 in
      match o with
      | Returns _ =>
          let '(err, a3, es3) := syncEach now rest a2 in
          (err, a3, es1 ++ es2 ++ es3)
      | Throws e => (Some e, a2, es1 ++ es2)
      end
  end.

(** [handleSyncAll()]: [respond i] is how the request for the [i]-th row of
    the table settles. *)
Definition handleSyncAll (now : Z)
  (respond : nat -> Settled (option Changes)) (a : App) : App * list Effect :=
  let todo :=
    imap (fun i repo => (Panel.name repo, respond i))
      (Panel.repositories (panel (view a))) in
  let '(err, a1, es) := syncEach now todo (setLoading true a) in
  match err with
  | None => (setLoading false a1, es)
  | Some e =>
      (setLoading false
         (setError ("Sync all failed: " ++ message e)%string a1), es)
  end.

(** The repositories a sync request was sent for, in order. *)
Definition posted (es : list Effect) : list string :=
  omap (fun e => match e with HttpPost _ repo _ => Some repo | _ => None end)
    es.

(** The entries of a to-do list up to and including the first whose
    request is rejected. *)
Fixpoint upToFailure (todo : list (string * Settled (option Changes)))
  : list string :=
  match todo with
  | [] => []
  | (repoName, Resolved _) :: rest => repoName :: upToFailure rest
  | (repoName, Rejected _) :: _ => [repoName]
  end.

(** The error of the first rejected request. *)
Fixpoint firstFailure (todo : list (string * Settled (option Changes)))
  : option Error :=
  match todo with
  | [] => None
  | (_, Resolved _) :: rest => firstFailure rest
  | (_, Rejected e) :: _ => Some e
  end.

End Actions.

Section SyncActions.
Import Actions.

Lemma call_syncRepository now repoName a :
  call now (syncRepository repoName "{}") a =
    (Returns tt, a,
     [HttpPost (baseApiUrl (config (this (service a))) ++ "/github/repos/sync")
        repoName "{}"]).
Proof.
  unfold call, syncRepository. unfold_monad. simpl.
  by destruct a as [w [p l]].
Qed.

Lemma posted_notification w event data : posted (notification w event data) = [].
Proof. unfold notification. by destruct (listeners (this w) !! event). Qed.

Lemma call_syncRepository_resume now repoName response a :
  let '(o, a', es) := call now (syncRepository_resume repoName response) a in
  o = match response with
      | Resolved changes => Returns changes
      | Rejected e => Throws e
      end /\
  service a' = service a /\
  loading (view a') = loading (view a) /\
  posted es = [].
Proof.
  unfold call. destruct response as [changes|e].
  - destruct (syncRepository_resume_resolved (service a) repoName changes)
      as (Ho & Hw & He).
    rewrite Ho, Hw, He. split_and!; [done..|]. apply posted_notification.
  - destruct (syncRepository_resume_rejected (service a) repoName e)
      as (Ho & Hw & He).
    rewrite Ho, Hw, He. split_and!; [done..|]. apply posted_notification.
Qed.

Lemma syncEach_stops now todo : forall a,
  let '(err, a', es) := syncEach now todo a in
  err = firstFailure todo /\
  service a' = service a /\
  loading (view a') = loading (view a) /\
  posted es = upToFailure todo.
Proof.
  induction todo as [|[repoName response] todo IH]; intros a; [done|].
  cbn [syncEach]. rewrite call_syncRepository.
  pose proof (call_syncRepository_resume now repoName response a) as H.
  destruct (call now (syncRepository_resume repoName response) a)
    as [[o a2] es2].
  destruct H as (Ho & Hs & Hl & Hp). subst o.
  destruct response as [changes|e].
  - specialize (IH a2). destruct (syncEach now todo a2) as [[err a3] es3].
    destruct IH as (He & Hs' & Hl' & Hp').
    split_and!; [done|congruence|congruence|].
    unfold posted in *. rewrite !omap_app, Hp, Hp'. done.
  - split_and!; [done..|]. unfold posted in *.
    rewrite !omap_app, Hp. done.
Qed.

(** X17. [handleSyncAll] syncs the rows of the table in order and stops at
    the first request that is rejected: a sync request is sent for every
    row up to and including that one and for none after it.  It always ends
    with [loading] off, and after a rejection the panel shows
    "Sync all failed: " followed by the message of the error. *)
Theorem handleSyncAll_stops_at_first_failure (now : Z)
  (respond : nat -> Settled (option Changes)) (a : App) :
  let todo := imap (fun i repo => (Panel.name repo, respond i))
                (Panel.repositories (panel (view a))) in
  let '(a', es) := handleSyncAll now respond a in
  posted es = upToFailure todo /\
  loading (view a') = false /\
  service a' = service a /\
  forall e, firstFailure todo = Some e ->
    Panel.error (panel (view a'))
      = Some ("Sync all failed: " ++ message e)%string.
Proof.
  intros todo. unfold handleSyncAll. fold todo.
  pose proof (syncEach_stops now todo (setLoading true a)) as H.
  destruct (syncEach now todo (setLoading true a)) as [[err a1] es].
  destruct H as (He & Hs & _ & Hp).
  destruct err as [e|]; simpl; split_and!; try done.
  - intros e' He'. rewrite <- He in He'. by injection He' as <-.
  - intros e' He'. rewrite <- He in He'. discriminate.
Qed.

Lemma handleSyncAll_stops_at_first_failure_witness :
  let rows := [ Panel.mkRepo "org/a" None false None;
                Panel.mkRepo "org/b" None false None;
                Panel.mkRepo "org/c" None false None ] in
  let a := mkApp mountedWorld
             (mkView (Panel.mkState rows
                        (mkStatusEvent Status.connecting None) None [])
                false) in
  let respond := fun i : nat =>
    if decide (i = 1%nat) then Rejected (HttpError "Network Error")
    else Resolved (Some (mkChanges 0 0 0)) in
  posted (handleSyncAll 1000 respond a).2 = ["org/a"; "org/b"] /\
  Panel.error (panel (view (handleSyncAll 1000 respond a).1))
    = Some "Sync all failed: Network Error".
Proof.
  intros rows a respond.
  pose proof (handleSyncAll_stops_at_first_failure 1000 respond a) as H.
  destruct (handleSyncAll 1000 respond a) as [a' es].
  destruct H as (Hp & _ & _ & He). cbn [fst snd]. split.
  - rewrite Hp. reflexivity.
  - apply (He (HttpError "Network Error")). reflexivity.
Defined.

(** X18. [handleManualSync] always ends with [loading] off.  When the sync
    request is rejected and the panel's ['sync-error'] handler is the
    registered listener, the panel ends up showing "Manual sync failed: "
    followed by the message of the error (it replaces the message the
    handler had just set), exactly one error entry has been put in front of
    the history, and the repository table is as it was. *)
Theorem handleManualSync_failure_reported (now : Z) (repoName : string)
  (e : Error) (a : App) :
  listeners (this (service a)) !! "sync-error"
    = Some [Panel.handleSyncError_ref] ->
  (forall response,
     loading (view (handleManualSync_resume now repoName response a).1)
       = false) /\
  let a' := (handleManualSync_resume now repoName (Rejected e) a).1 in
  Panel.error (panel (view a'))
    = Some ("Manual sync failed: " ++ message e)%string /\
  Panel.syncHistory (panel (view a')) =
    Panel.ErrorEntry now (manualFailure repoName e)
      :: take 19 (Panel.syncHistory (panel (view a))) /\
  Panel.repositories (panel (view a'))
    = Panel.repositories (panel (view a)) /\
  service a' = service a.
Proof.
  intros Hl. split.
  - intros response. unfold handleManualSync_resume.
    destruct (call now (syncRepository_resume repoName response) a)
      as [[[x|x] a1] es]; reflexivity.
  - unfold handleManualSync_resume, call.
    destruct (syncRepository_resume_rejected (service a) repoName e)
      as (Ho & Hw & He).
    rewrite Ho, Hw, He, Hl. simpl. done.
Qed.

Lemma handleManualSync_failure_reported_witness :
  let a := mkApp mountedWorld (mkView Panel.initial true) in
  let a' := (handleManualSync_resume 1000 "org/repo"
               (Rejected (HttpError "Network Error")) a).1 in
  listeners (this (service a)) !! "sync-error"
    = Some [Panel.handleSyncError_ref] /\
  Panel.error (panel (view a')) = Some "Manual sync failed: Network Error" /\
  loading (view a') = false.
Proof.
  intros a a'.
  assert (H : listeners (this (service a)) !! "sync-error"
              = Some [Panel.handleSyncError_ref]) by (vm_compute; reflexivity).
  split; [exact H|].
  destruct (handleManualSync_failure_reported 1000 "org/repo"
              (HttpError "Network Error") a H) as (Hload & He & _).
  split; [exact He|]. apply Hload.
Defined.

End SyncActions.

(** ** Mounting and unmounting the panel *)

Lemma listeners_startSync options w :
  listeners (this (world (startSync options w))) = listeners (this w).
Proof.
  assert (Hs : stable (fun w => listeners (this w)) (fun _ => True)
                 (startSync options)).
  { unfold startSync.
    repeat first
      [ progress intros
      | apply stable_ret
      | apply stable_throw
      | apply stable_gets
      | apply stable_browse
      | apply stable_emit; exact I
      | apply stable_update; reflexivity
      | apply stable_tamper; reflexivity
      | apply stable_fresh; reflexivity
      | apply stable_notifyListeners; intros; exact I
      | apply stable_when
      | apply stable_try_catch
      | apply stable_bind
      | match goal with
        | |- stable _ _ (match ?x with _ => _ end) => destruct x
        end ]. }
  apply Hs.
Qed.

Lemma run_app inputs inputs' w :
  (run (inputs ++ inputs') w).1 = (run inputs' (run inputs w).1).1.
Proof.
  revert w. induction inputs as [|i inputs IH]; intros w; [done|].
  simpl. apply IH.
Qed.

(** X19. Unmounting undoes mounting.  If the panel's three handlers are not
    registered before its mount effect runs, then after the mount effect
    and its cleanup the listener table is exactly what it was before, and
    the service holds no socket and no polling handle, is not connected,
    and has no interval timer registered. *)
Theorem unmount_undoes_mount (w : World) (useWebhooks' usePolling' : bool)
  (pollingInterval' : Z) (l1 l2 l3 : list Callback) :
  listeners (this w) !! "repo-updated" = Some l1 ->
  listeners (this w) !! "connection-status" = Some l2 ->
  listeners (this w) !! "sync-error" = Some l3 ->
  Panel.handleRepoUpdate_ref ∉ l1 ->
  Panel.handleConnectionStatus_ref ∉ l2 ->
  Panel.handleSyncError_ref ∉ l3 ->
  tidy w ->
  let w' := (run (mount useWebhooks' usePolling' pollingInterval' ++ unmount)
               w).1 in
  listeners (this w') = listeners (this w) /\
  socket (this w') = None /\
  pollingTimeout (this w') = None /\
  isConnected (this w') = false /\
  intervals (browser w') = [].
Proof.
  intros H1 H2 H3 N1 N2 N3 Hw w'. subst w'.
  rewrite run_app. unfold mount, unmount. cbn [run fst snd step].
  (* the three registrations *)
  rewrite (addEventListener_own w _ _ _ H1). cbn [world].
  erewrite (addEventListener_own _ "connection-status")
    by (cbn [this listeners set_listeners world]; rewrite lookup_insert_ne by done; exact H2).
  cbn [world this browser listeners set_listeners].
  erewrite (addEventListener_own _ "sync-error")
    by (cbn [this listeners set_listeners world]; rewrite !lookup_insert_ne by done; exact H3).
  cbn [world this browser listeners set_listeners].
  (* the start *)
  match goal with
  | |- context [startSync ?o ?w0] =>
      pose proof (listeners_startSync o w0) as Hl;
      assert (Ht : tidy (world (startSync o w0)))
        by (apply (tidy_step (StartSync o)); exact Hw);
      generalize dependent (world (startSync o w0))
  end.
  intros w4 Hl Ht. cbn [world this listeners set_listeners] in Hl.
  (* the three removals *)
  erewrite (removeEventListener_own w4 "repo-updated")
    by (rewrite Hl, !lookup_insert_ne by done; apply lookup_insert_eq).
  cbn [world this browser listeners set_listeners].
  erewrite (removeEventListener_own _ "connection-status")
    by (cbn [this listeners set_listeners world]; rewrite Hl, !lookup_insert_ne by done; apply lookup_insert_eq).
  cbn [world this browser listeners set_listeners].
  erewrite (removeEventListener_own _ "sync-error")
    by (cbn [this listeners set_listeners world]; rewrite !lookup_insert_ne by done; rewrite Hl;
        apply lookup_insert_eq).
  cbn [world this browser listeners set_listeners].
  rewrite !filter_ne_snoc by done.
  (* the stop *)
  match goal with
  | |- context [stopSync ?w0] =>
      assert (Ht' : tidy w0) by exact Ht;
      destruct (stopSync_spec w0 Ht') as (_ & Hs & Hp & Hc & Hi & Hls)
  end.
  split_and!; [|done..].
  rewrite Hls. cbn [this listeners set_listeners]. rewrite Hl.
  apply map_eq. intros k.
  destruct (decide (k = "sync-error")) as [->|];
    [by rewrite lookup_insert_eq, H3|rewrite lookup_insert_ne by done].
  destruct (decide (k = "connection-status")) as [->|];
    [by rewrite lookup_insert_eq, H2|rewrite lookup_insert_ne by done].
  destruct (decide (k = "repo-updated")) as [->|];
    [by rewrite lookup_insert_eq, H1|rewrite lookup_insert_ne by done].
  by rewrite !lookup_insert_ne by done.
Qed.

Lemma unmount_undoes_mount_witness :
  let w' := (run (mount true true 60 ++ unmount) initialWorld).1 in
  tidy initialWorld /\
  listeners (this w') = listeners (this initialWorld) /\
  intervals (browser w') = [].
Proof.
  intros w'.
  assert (Ht : tidy initialWorld) by reflexivity.
  split; [exact Ht|].
  destruct (unmount_undoes_mount initialWorld true true 60 [] [] [])
    as (Hl & _ & _ & _ & Hi);
    try (vm_compute; reflexivity); try apply not_elem_of_nil; try exact Ht.
  split; [exact Hl|exact Hi].
Defined.

(** ** Starting the service *)

Lemma startPolling_active w :
  pollingActive (world (startPolling w)) /\
  socket (this (world (startPolling w))) = socket (this w) /\
  config (this (world (startPolling w))) = config (this w).
Proof.
  unfold startPolling, stopPolling, pollRepositories, pollingActive.
  unfold_monad.
  destruct (pollingTimeout (this w)) as [po|] eqn:Ht; crunch;
    (split_and!; [|done..]); eexists; (split; [reflexivity|]);
    apply registered_snoc.
Qed.

Lemma startSync_world options w :
  let c := spread (config (this w)) options in
  let w1 := mkWorld (set_config c (this w)) (browser w) in
  let w2 := world (when (useWebhooks c) connectWebSocket w1) in
  world (startSync options w) =
    world (when (usePolling (config (this w2))) startPolling w2).
Proof.
  intros c w1 w2. unfold startSync.
  rewrite (bind_returns _ _ w tt) by reflexivity. cbn [world].
  change (world (update _ w)) with w1.
  rewrite (bind_returns _ _ w1 tt)
    by (by rewrite notifyListeners_literal by reflexivity).
  cbn [world]. rewrite notifyListeners_literal by reflexivity. cbn [world].
  rewrite (bind_returns _ _ w1 (useWebhooks c)) by reflexivity.
  cbn [world gets].
  destruct (safe_when (useWebhooks c) connectWebSocket safe_connectWebSocket w1)
    as [[] Hc].
  rewrite (bind_returns _ _ w1 tt) by exact Hc. cbn [world]. fold w2.
  rewrite (bind_returns _ _ w2 (usePolling (config (this w2))))
    by reflexivity.
  reflexivity.
Qed.

Lemma connectWebSocket_config w :
  config (this (world (connectWebSocket w))) = config (this w).
Proof.
  destruct (retry_connectWebSocket w) as [H _].
  unfold retryTimers, retryState in H. by injection H.
Qed.

Lemma connectWebSocket_accepted w :
  wsRefused (browser w) = false ->
  socket (this (world (connectWebSocket w))) = Some (nextHandle (browser w)).
Proof.
  intros Hr. unfold connectWebSocket, disconnectWebSocket. unfold_monad.
  destruct (socket (this w)) as [so|] eqn:Hs; crunch; done.
Qed.

(** X20. [startSync] checks nothing and never throws.  Whatever the
    options, it replaces the configuration by the options laid over the
    current configuration (a key the options do not give keeps its value);
    if [usePolling] is then set, polling is active afterwards; if
    [useWebhooks] is then set and the browser accepts the connection, the
    service holds a newly opened socket; if [useWebhooks] is not set, the
    socket it holds, if any, is left as it is. *)
Theorem startSync_never_rejects (options : Options) (w : World) :
  let c := spread (config (this w)) options in
  let r := startSync options w in
  outcome r = Returns tt /\
  config (this (world r)) = c /\
  (usePolling c = true -> pollingActive (world r)) /\
  (useWebhooks c = true -> wsRefused (browser w) = false ->
     socket (this (world r)) = Some (nextHandle (browser w))) /\
  (useWebhooks c = false -> socket (this (world r)) = socket (this w)).
Proof.
  intros c r. subst r.
  split; [by destruct (safe_startSync options w) as [[] H]|].
  rewrite startSync_world. fold c.
  set (w1 := mkWorld (set_config c (this w)) (browser w)).
  set (w2 := world (when (useWebhooks c) connectWebSocket w1)).
  assert (Hc2 : config (this w2) = c).
  { subst w2. destruct (useWebhooks c); [|done].
    simpl when. by rewrite connectWebSocket_config. }
  assert (Hs2 : (useWebhooks c = true -> wsRefused (browser w) = false ->
                 socket (this w2) = Some (nextHandle (browser w))) /\
                (useWebhooks c = false -> socket (this w2) = socket (this w))).
  { subst w2. destruct (useWebhooks c); split; try done.
    intros _ Hr. simpl when. by rewrite connectWebSocket_accepted. }
  rewrite Hc2. destruct (usePolling c) eqn:Hp; simpl when.
  - destruct (startPolling_active w2) as (Ha & Hs & Hc).
    rewrite Hs, Hc. destruct Hs2 as [Hs2 Hs2']. split_and!; done.
  - destruct Hs2 as [Hs2 Hs2']. split_and!; done.
Qed.

Lemma startSync_never_rejects_witness :
  let options := mkOptions None (Some (-1000)) (Some true) (Some true)
                   (Some (-3)) None in
  let r := startSync options initialWorld in
  usePolling (spread (config (this initialWorld)) options) = true /\
  outcome r = Returns tt /\
  pollingInterval (config (this (world r))) = -1000 /\
  pollingActive (world r).
Proof.
  intros options r.
  destruct (startSync_never_rejects options initialWorld)
    as (Ho & Hc & Hp & _).
  split; [reflexivity|]. split; [exact Ho|]. split.
  - subst r. rewrite Hc. reflexivity.
  - apply Hp. reflexivity.
Defined.
